(** * A splay tree with move-to-root search: heap model and verification

The development embeds [splay_tree.hpp]: the node class nested in
[ys::SplayTree], the stand-alone [ys::Node] class (the second copy of
the header) and the map-like handle [ys::SplayTree].

The C++ code works on raw pointers and rewires child links in place, so
the model keeps an explicit heap: a finite map from addresses to node
records.  Every operation is a function from heaps to results; a
dereference of the null pointer or of a freed node is a [Fault].
Recursion and loops are bounded by a fuel argument, and each
specification states how much fuel is enough. *)

From stdpp Require Import base option list sorting gmap strings pretty.
From Stdlib Require Import ZArith Ascii.

Local Open Scope Z_scope.

(** ** Pointers, nodes and heaps *)

(** The address of a live node.  A [Node*] is an optional address: the null
    pointer [0] is [None]. *)
Definition addr := positive.
Abbreviation ptr := (option addr).

(** The fields of a node: [c_[0]], [c_[1]], [k_], [v_].  Keys and values are
    integers, as in both drivers; the order on machine integers is the
    order on [Z]. *)
Record Node := mkNode { c0 : ptr; c1 : ptr; k_ : Z; v_ : Z }.

(** The array [c_] is indexed by an [int] that is always 0 or 1; the index
    is a [bool] ([false] is 0, [true] is 1) and [1 - i] is [negb i]. *)
Definition c_ (n : Node) (i : bool) : ptr := if i then c1 n else c0 n.

Definition set_c (n : Node) (i : bool) (q : ptr) : Node :=
  if i then mkNode (c0 n) q (k_ n) (v_ n) else mkNode q (c1 n) (k_ n) (v_ n).

Abbreviation heap := (gmap addr Node).

(** ** Results and the heap monad *)

Inductive result (A : Type) : Type :=
| Ok (a : A) (h : heap)   (* normal return, with the heap left behind *)
| Fault                   (* null or dangling pointer dereferenced *)
| OutOfFuel.              (* recursion or loop bound exhausted *)

Arguments Ok {A} a h.
Arguments Fault {A}.
Arguments OutOfFuel {A}.

Definition M (A : Type) : Type := heap -> result A.

Definition ret {A} (a : A) : M A := fun h => Ok a h.

Definition bind {A B} (m : M A) (f : A -> M B) : M B :=
  fun h => match m h with
           | Ok a h' => f a h'
           | Fault => Fault
           | OutOfFuel => OutOfFuel
           end.

Notation "'let!' x := m 'in' k" := (bind m (fun x => k))
  (at level 10, x pattern, m at level 100, k at level 200, only parsing).
Notation "m ;;; k" := (bind m (fun _ => k))
  (at level 100, k at level 200, right associativity, only parsing).

Definition out_of_fuel {A} : M A := fun _ => OutOfFuel.

(** [*p]: read the node a pointer refers to. *)
Definition load (p : ptr) : M Node :=
  fun h => match p with
           | Some a => match h !! a with Some n => Ok n h | None => Fault end
           | None => Fault
           end.

(** [p->k_], [p->v_] and [p->c_[i]] as r-values. *)
Definition key (p : ptr) : M Z := let! n := load p in ret (k_ n).
Definition val (p : ptr) : M Z := let! n := load p in ret (v_ n).
Definition get_c (p : ptr) (i : bool) : M ptr := let! n := load p in ret (c_ n i).

(** [p->c_[i] = q]. *)
Definition put_c (p : ptr) (i : bool) (q : ptr) : M unit :=
  fun h => match p with
           | Some a => match h !! a with
                       | Some n => Ok tt (<[a := set_c n i q]> h)
                       | None => Fault
                       end
           | None => Fault
           end.

(** [new Node(k, v)]: the constructor clears both child links.  The
    allocator hands out an address that is not in use. *)
Definition new_Node (k v : Z) : M ptr :=
  fun h => let a := fresh (dom h) in Ok (Some a) (<[a := mkNode None None k v]> h).

(** [delete p], for a non-null [p]. *)
Definition delete_Node (p : ptr) : M unit :=
  fun h => match p with
           | Some a => match h !! a with
                       | Some _ => Ok tt (delete a h)
                       | None => Fault
                       end
           | None => Fault
           end.

(** ** The node class nested in [ys::SplayTree] *)

Module SplayTree.
Module Node.

(** The tail shared by both branches of the helper:
    [c = p; p->c_[i] = n->c_[1-i]; p = n; return c].  The reference
    parameter [p] is passed in and handed back as the second component. *)
Definition ascend (n p : ptr) (i : bool) : M (ptr * ptr) :=
  let! q := get_c n (negb i) in
  put_c p i q ;;;
  ret (p, n).

(** The private helper [Find(n, p, k, i)].  [p] is a reference to the
    caller's pointer variable, never to a field of a node, so it is
    modelled by its value on entry and its value on exit: the result is
    the pair (returned pointer, final [p]). *)
Fixpoint Find_sub (fuel : nat) (n p : ptr) (k : Z) (i : bool) : M (ptr * ptr) :=
  match fuel with
  | O => out_of_fuel
  | S fuel =>
      match n with
      | None => ret (None, p)
      | Some _ =>
          let! nk := key n in
          if negb (k =? nk) then
            let j := k >? nk in
            let! nj := get_c n j in
            let! (c, n') := Find_sub fuel nj n k j in
            match c with
            | None => ret (None, p)
            | Some _ => put_c n' (negb j) c ;;; ascend n' p i
            end
          else ascend n p i
      end
  end.

(** [Add(n, k, v)]. *)
Fixpoint Add (fuel : nat) (n : ptr) (k v : Z) : M ptr :=
  match fuel with
  | O => out_of_fuel
  | S fuel =>
      match n with
      | Some _ =>
          let! nk := key n in
          let i := nk <=? k in
          let! ni := get_c n i in
          let! r := Add fuel ni k v in
          put_c n i r ;;;
          ret n
      | None => new_Node k v
      end
  end.

(** The loop [while (c->c_[0]) { p = c; c = c->c_[0]; }] of
    [DeleteRoot], from the values of [p] and [c] before it to their
    values after it. *)
Fixpoint leftmost (fuel : nat) (p c : ptr) : M (ptr * ptr) :=
  match fuel with
  | O => out_of_fuel
  | S fuel =>
      let! c' := get_c c false in
      match c' with
      | Some _ => leftmost fuel c c'
      | None => ret (p, c)
      end
  end.

(** [DeleteRoot(n)]. *)
Definition DeleteRoot (fuel : nat) (n : ptr) : M ptr :=
  match n with
  | None => ret None
  | Some _ =>
      let! n1 := get_c n true in
      let! c :=
        match n1 with
        | Some _ =>
            let! (p, c) := leftmost fuel None n1 in
            match p with
            | Some _ =>
                let! cr := get_c c true in
                put_c p false cr ;;;
                let! nr := get_c n true in
                put_c c true nr
            | None => ret tt
            end ;;;
            let! nl := get_c n false in
            put_c c false nl ;;;
            ret c
        | None => get_c n false
        end in
      delete_Node n ;;;
      ret c
  end.

(** The public [Find(n, k)].  [n] is a reference to the caller's root
    pointer: the result is the pair (returned pointer, final [n]). *)
Definition Find (fuel : nat) (n : ptr) (k : Z) : M (ptr * ptr) :=
  match n with
  | Some _ =>
      let! nk := key n in
      if negb (k =? nk) then
        let i := k >? nk in
        let! ni := get_c n i in
        let! (c, n') := Find_sub fuel ni n k i in
        match c with
        | None => ret (None, n')
        | Some _ => put_c n' (negb i) c ;;; ret (n', n')
        end
      else ret (n, n)
  | None => ret (n, n)
  end.

(** [DeleteAll(n)]: both subtrees first, then the node itself. *)
Fixpoint DeleteAll (fuel : nat) (n : ptr) : M unit :=
  match fuel with
  | O => out_of_fuel
  | S fuel =>
      match n with
      | Some _ =>
          let! n0 := get_c n false in
          match n0 with Some _ => DeleteAll fuel n0 | None => ret tt end ;;;
          let! n1 := get_c n true in
          match n1 with Some _ => DeleteAll fuel n1 | None => ret tt end ;;;
          delete_Node n
      | None => ret tt
      end
  end.

(** The loop [for (size_t i(0); i < d; ++i) fprintf(file, "  ")]: the
    text it writes. *)
Fixpoint indent (d : nat) : string :=
  match d with
  | O => ""
  | S d => "  " +:+ indent d
  end.

(** [Print(n, file, c, d)]: the text written to [file], in order.
    [fmt_G k] stands for what [fprintf] writes for the conversion [%G] of
    [(double)k]; [d] is a [size_t], 64 bits wide, so [d + 1] wraps. *)
Fixpoint Print (fmt_G : Z -> string) (fuel : nat) (n : ptr) (c : ascii) (d : Z)
  : M string :=
  match fuel with
  | O => out_of_fuel
  | S fuel =>
      match n with
      | Some _ =>
          let! n1 := get_c n true in
          let! above :=
            match n1 with
            | Some _ => Print fmt_G fuel n1 "R"%char ((d + 1) mod 2 ^ 64)
            | None => ret ""
            end in
          let! nk := key n in
          let here := indent (Z.to_nat d) +:+ String c (":" +:+ fmt_G nk +:+ String "010"%char "") in
          let! n0 := get_c n false in
          let! below :=
            match n0 with
            | Some _ => Print fmt_G fuel n0 "L"%char ((d + 1) mod 2 ^ 64)
            | None => ret ""
            end in
          ret (above +:+ here +:+ below)
      | None => ret ""
      end
  end.

End Node.

(** *** The handle *)

(** [size_t] is taken to be 64 bits wide; [++length_] and [--length_]
    wrap around. *)
Definition size_t_modulus : Z := 2 ^ 64.

(** The data members [tree_] and [length_]. *)
Record t := mk { tree_ : ptr; length_ : Z }.

(** The constructor [SplayTree()]. *)
Definition init : t := mk None 0.

Section Handle.

(** The template arguments [INVALID_K] and [INVALID_V]. *)
Variables INVALID_K INVALID_V : Z.

(** [add(key, value)]. *)
Definition add (fuel : nat) (s : t) (key value : Z) : M t :=
  let! r := Node.Add fuel (tree_ s) key value in
  ret (mk r ((length_ s + 1) mod size_t_modulus)).

(** [remove(key)]: the value returned, and the handle afterwards. *)
Definition remove (fuel : nat) (s : t) (key : Z) : M (Z * t) :=
  let! (node, tree) := Node.Find fuel (tree_ s) key in
  match node with
  | Some _ =>
      let! r := val node in
      let! tree' := Node.DeleteRoot fuel tree in
      ret (r, mk tree' ((length_ s - 1) mod size_t_modulus))
  | None => ret (INVALID_V, mk tree (length_ s))
  end.

(** [find(key)]: the value returned, and the handle afterwards. *)
Definition find (fuel : nat) (s : t) (key : Z) : M (Z * t) :=
  let! (node, tree) := Node.Find fuel (tree_ s) key in
  match node with
  | Some _ => let! r := val node in ret (r, mk tree (length_ s))
  | None => ret (INVALID_V, mk tree (length_ s))
  end.

(** [root_key()]: [if (tree_) return INVALID_K; return tree_->k_;]. *)
Definition root_key (s : t) : M Z :=
  match tree_ s with
  | Some _ => ret INVALID_K
  | None => key (tree_ s)
  end.

(** The loop [while (node->c_[i]) node = node->c_[i];] of [min_key]
    ([i] is 0) and [max_key] ([i] is 1). *)
Fixpoint descend (fuel : nat) (i : bool) (node : ptr) : M ptr :=
  match fuel with
  | O => out_of_fuel
  | S fuel =>
      let! c := get_c node i in
      match c with
      | Some _ => descend fuel i c
      | None => ret node
      end
  end.

(** [min_key()]. *)
Definition min_key (fuel : nat) (s : t) : M Z :=
  match tree_ s with
  | Some _ => ret INVALID_K
  | None =>
      let! node := descend fuel false (tree_ s) in
      key node
  end.

(** [max_key()]. *)
Definition max_key (fuel : nat) (s : t) : M Z :=
  match tree_ s with
  | Some _ => ret INVALID_K
  | None =>
      let! node := descend fuel true (tree_ s) in
      key node
  end.

(** [size()]. *)
Definition size (s : t) : Z := length_ s.

(** [InvalidKey()] and [InvalidValue()]. *)
Definition InvalidKey : Z := INVALID_K.
Definition InvalidValue : Z := INVALID_V.

(** The destructor [~SplayTree()]: [DeleteAll(tree_)]. *)
Definition destructor (fuel : nat) (s : t) : M unit :=
  Node.DeleteAll fuel (tree_ s).

(** [print(file)]: [Print(tree_, file)], with the defaults ['C'] and [0]
    for the tag and the depth. *)
Definition print (fmt_G : Z -> string) (fuel : nat) (s : t) : M string :=
  Node.Print fmt_G fuel (tree_ s) "C"%char 0.

End Handle.

End SplayTree.

(** ** The stand-alone class [ys::Node] *)

Module Node.

(** [c = p; p->c_[i] = n->c_[1-i]; p = n; return c], with the flag [r]
    carried along. *)
Definition ascend (n p : ptr) (i r : bool) : M (ptr * ptr * bool) :=
  let! q := get_c n (negb i) in
  put_c p i q ;;;
  ret (p, n, r).

(** The private helper [Find(n, p, k, i, r)].  Both [p] and [r] are
    references to variables of the caller: the result is the triple
    (returned pointer, final [p], final [r]). *)
Fixpoint Find_sub (fuel : nat) (n p : ptr) (k : Z) (i r : bool)
  : M (ptr * ptr * bool) :=
  match fuel with
  | O => out_of_fuel
  | S fuel =>
      match n with
      | None => ret (None, p, r)
      | Some _ =>
          let! nk := key n in
          if negb (k =? nk) then
            let j := k >? nk in
            let! nj := get_c n j in
            let! (c, n', r') := Find_sub fuel nj n k j r in
            if negb r' then ret (n', p, r')
            else put_c n' (negb j) c ;;; ascend n' p i r'
          else ascend n p i true
      end
  end.

(** [Add(n, k, v)]. *)
Fixpoint Add (fuel : nat) (n : ptr) (k v : Z) : M ptr :=
  match fuel with
  | O => out_of_fuel
  | S fuel =>
      match n with
      | Some _ =>
          let! nk := key n in
          let i := nk <=? k in
          let! ni := get_c n i in
          let! r := Add fuel ni k v in
          put_c n i r ;;;
          ret n
      | None => new_Node k v
      end
  end.

(** The loop of [DeleteRoot]. *)
Fixpoint leftmost (fuel : nat) (p c : ptr) : M (ptr * ptr) :=
  match fuel with
  | O => out_of_fuel
  | S fuel =>
      let! c' := get_c c false in
      match c' with
      | Some _ => leftmost fuel c c'
      | None => ret (p, c)
      end
  end.

(** [DeleteRoot(n)]. *)
Definition DeleteRoot (fuel : nat) (n : ptr) : M ptr :=
  match n with
  | None => ret None
  | Some _ =>
      let! n1 := get_c n true in
      let! c :=
        match n1 with
        | Some _ =>
            let! (p, c) := leftmost fuel None n1 in
            match p with
            | Some _ =>
                let! cr := get_c c true in
                put_c p false cr ;;;
                let! nr := get_c n true in
                put_c c true nr
            | None => ret tt
            end ;;;
            let! nl := get_c n false in
            put_c c false nl ;;;
            ret c
        | None => get_c n false
        end in
      delete_Node n ;;;
      ret c
  end.

(** The public [Find(n, k)]: (returned pointer, final [n]). *)
Definition Find (fuel : nat) (n : ptr) (k : Z) : M (ptr * ptr) :=
  let r := false in
  match n with
  | Some _ =>
      let! nk := key n in
      if negb (k =? nk) then
        let i := k >? nk in
        let! ni := get_c n i in
        let! (c, n', r') := Find_sub fuel ni n k i r in
        if negb r' then ret (None, n')
        else put_c n' (negb i) c ;;; ret (n', n')
      else ret (n, n)
  | None => ret (n, n)
  end.

(** [DeleteAll(n)]. *)
Fixpoint DeleteAll (fuel : nat) (n : ptr) : M unit :=
  match fuel with
  | O => out_of_fuel
  | S fuel =>
      match n with
      | Some _ =>
          let! n0 := get_c n false in
          match n0 with Some _ => DeleteAll fuel n0 | None => ret tt end ;;;
          let! n1 := get_c n true in
          match n1 with Some _ => DeleteAll fuel n1 | None => ret tt end ;;;
          delete_Node n
      | None => ret tt
      end
  end.

(** The indentation loop of [Print]. *)
Fixpoint indent (d : nat) : string :=
  match d with
  | O => ""
  | S d => "  " +:+ indent d
  end.

(** [Print(n, file, c, d)]: the text written to [file]. *)
Fixpoint Print (fmt_G : Z -> string) (fuel : nat) (n : ptr) (c : ascii) (d : Z)
  : M string :=
  match fuel with
  | O => out_of_fuel
  | S fuel =>
      match n with
      | Some _ =>
          let! n1 := get_c n true in
          let! above :=
            match n1 with
            | Some _ => Print fmt_G fuel n1 "R"%char ((d + 1) mod 2 ^ 64)
            | None => ret ""
            end in
          let! nk := key n in
          let here := indent (Z.to_nat d) +:+ String c (":" +:+ fmt_G nk +:+ String "010"%char "") in
          let! n0 := get_c n false in
          let! below :=
            match n0 with
            | Some _ => Print fmt_G fuel n0 "L"%char ((d + 1) mod 2 ^ 64)
            | None => ret ""
            end in
          ret (above +:+ here +:+ below)
      | None => ret ""
      end
  end.

End Node.

(** ** Sequences of calls *)

(** Repeated [Add] from a root pointer, as in the first loop of the
    node-level driver: [st = Add(st, k, v)] for each pair. *)
Fixpoint Add_all (fuel : nat) (n : ptr) (kvs : list (Z * Z)) : M ptr :=
  match kvs with
  | [] => ret n
  | (k, v) :: kvs => let! n' := SplayTree.Node.Add fuel n k v in Add_all fuel n' kvs
  end.

(** Repeated [add] on a handle, as in the first loop of the handle-level
    driver: [st.add(k, v)] for each pair. *)
Fixpoint add_all (fuel : nat) (s : SplayTree.t) (kvs : list (Z * Z)) : M SplayTree.t :=
  match kvs with
  | [] => ret s
  | (k, v) :: kvs => let! s' := SplayTree.add fuel s k v in add_all fuel s' kvs
  end.

(** A call on a handle, as a client may interleave them. *)
Inductive op : Type :=
| OpAdd (k v : Z)
| OpFind (k : Z)
| OpRemove (k : Z).

(** Perform one call; the value a query returns is dropped, the handle
    and the heap are kept. *)
Definition step (INVALID_V : Z) (fuel : nat) (s : SplayTree.t) (o : op) : M SplayTree.t :=
  match o with
  | OpAdd k v => SplayTree.add fuel s k v
  | OpFind k => let! (_, s') := SplayTree.find INVALID_V fuel s k in ret s'
  | OpRemove k => let! (_, s') := SplayTree.remove INVALID_V fuel s k in ret s'
  end.

(** Perform a sequence of calls, first to last. *)
Fixpoint run (INVALID_V : Z) (fuel : nat) (s : SplayTree.t) (ops : list op) : M SplayTree.t :=
  match ops with
  | [] => ret s
  | o :: ops => let! s' := step INVALID_V fuel s o in run INVALID_V fuel s' ops
  end.

(** [remove(k)] does not occur in a sequence of calls. *)
Definition no_remove (k : Z) (ops : list op) : Prop :=
  Forall (fun o => o <> OpRemove k) ops.

(** The data of the drivers: [values[i]] is inserted with value [i]; the
    sentinels are the defaults [~0] of [unsigned int]. *)
Definition demo_entries : list (Z * Z) :=
  [(7, 0); (3, 1); (11, 2); (1, 3); (5, 4); (9, 5); (13, 6); (0, 7);
   (2, 8); (4, 9); (6, 10); (8, 11); (10, 12); (12, 13); (14, 14)].

Definition demo_INVALID : Z := 2 ^ 32 - 1.

(** Fuel for the runs of the drivers: no tree there is deeper than 15. *)
Definition demo_fuel : nat := 15.

(** ** Binary trees of nodes, and the heaps that hold them *)

(** A tree of live nodes: each node carries its address, key and value.
    The shape of the structure a root pointer leads to is such a tree. *)
Inductive tree : Type :=
| E
| T (l : tree) (a : addr) (k v : Z) (r : tree).

Arguments T l a%_positive k%_Z v%_Z r.

(** The pointer to a tree: null for the empty tree. *)
Definition root (t : tree) : ptr :=
  match t with E => None | T _ a _ _ _ => Some a end.

Definition child (t : tree) (i : bool) : tree :=
  match t with E => E | T l _ _ _ r => if i then r else l end.

Fixpoint height (t : tree) : nat :=
  match t with E => O | T l _ _ _ r => S (height l `max` height r) end.

(** In-order traversals: addresses, keys, and (key, value) entries. *)
Fixpoint addrs (t : tree) : list addr :=
  match t with E => [] | T l a _ _ r => addrs l ++ a :: addrs r end.

Fixpoint keys (t : tree) : list Z :=
  match t with E => [] | T l _ k _ r => keys l ++ k :: keys r end.

Fixpoint entries (t : tree) : list (Z * Z) :=
  match t with E => [] | T l _ k v r => entries l ++ (k, v) :: entries r end.

(** [repr h t]: every node of [t] is in the heap [h] at its address, with
    its key, its value and the addresses of its two children. *)
Fixpoint repr (h : heap) (t : tree) : Prop :=
  match t with
  | E => True
  | T l a k v r =>
      h !! a = Some (mkNode (root l) (root r) k v) /\ repr h l /\ repr h r
  end.

(** [tree_at h p t]: from the pointer [p] the heap [h] holds exactly the
    tree [t], no node being shared. *)
Definition tree_at (h : heap) (p : ptr) (t : tree) : Prop :=
  root t = p /\ repr h t /\ NoDup (addrs t).

(** *** The operations on trees *)

(** What the heap code computes, read as functions on trees.  The lemmas
    [Add_spec], [Find_spec] and [DeleteRoot_spec] below prove that [Add],
    [Find] and [DeleteRoot] compute them on every heap that holds a tree. *)

(** Unbalanced insertion of a node with address [a]. *)
Fixpoint ins (t : tree) (a : addr) (k v : Z) : tree :=
  match t with
  | E => T E a k v E
  | T l b x w r =>
      if x <=? k then T l b x w (ins r a k v) else T (ins l a k v) b x w r
  end.

(** A single rotation lifting child [i] of the root above the root. *)
Definition rotate (i : bool) (t : tree) : tree :=
  match t with
  | E => E
  | T l a x v r =>
      if i then
        match r with
        | E => t
        | T rl b y w rr => T (T l a x v rl) b y w rr
        end
      else
        match l with
        | E => t
        | T ll b y w lr => T ll b y w (T lr a x v r)
        end
  end.

(** Move-to-root search: the node found is lifted by one single rotation
    at every level of the search path; [None] when the search falls off
    the tree. *)
Fixpoint splay (t : tree) (k : Z) : option tree :=
  match t with
  | E => None
  | T l a x v r =>
      if k =? x then Some t
      else if k >? x then
        match splay r k with
        | Some r' => Some (rotate true (T l a x v r'))
        | None => None
        end
      else
        match splay l k with
        | Some l' => Some (rotate false (T l' a x v r))
        | None => None
        end
  end.

(** The number of levels the search for [k] descends before it stops. *)
Fixpoint depth (t : tree) (k : Z) : nat :=
  match t with
  | E => O
  | T l _ x _ r =>
      if k =? x then O else S (depth (if k >? x then r else l) k)
  end.

(** Detach the leftmost node of the non-empty tree [T l a k v r]: its
    address, key and value, and what is left of the tree. *)
Fixpoint split_min (l : tree) (a : addr) (k v : Z) (r : tree)
  : addr * Z * Z * tree :=
  match l with
  | E => (a, k, v, r)
  | T ll b y w lr =>
      let '(m, l') := split_min ll b y w lr in (m, T l' a k v r)
  end.

(** Deletion of the root by successor splice. *)
Definition delete_root (t : tree) : tree :=
  match t with
  | E => E
  | T l a k v E => l
  | T l a k v (T rl b y w rr) =>
      let '(c, kc, vc, r') := split_min rl b y w rr in T l c kc vc r'
  end.

(** *** Order *)

(** The order the insertion rule [i = (n->k_ <= k)] maintains: smaller
    keys to the left, equal or larger keys to the right. *)
Fixpoint bst (t : tree) : Prop :=
  match t with
  | E => True
  | T l _ x _ r =>
      Forall (fun y => y < x) (keys l) /\ Forall (fun y => x <= y) (keys r)
      /\ bst l /\ bst r
  end.

(** The order as the data model words it: keys to the left are [<=], keys
    to the right are [>]. *)
Fixpoint bst_le_gt (t : tree) : Prop :=
  match t with
  | E => True
  | T l _ x _ r =>
      Forall (fun y => y <= x) (keys l) /\ Forall (fun y => x < y) (keys r)
      /\ bst_le_gt l /\ bst_le_gt r
  end.

(** *** Notions used to state the properties *)

(** In-order traversal of the structure a pointer leads to, read off the
    heap: the keys, left subtree first. *)
Fixpoint inorder_keys (fuel : nat) (h : heap) (p : ptr) : option (list Z) :=
  match fuel with
  | O => None
  | S fuel =>
      match p with
      | None => Some []
      | Some a =>
          match h !! a with
          | None => None
          | Some n =>
              match inorder_keys fuel h (c0 n), inorder_keys fuel h (c1 n) with
              | Some l, Some r => Some (l ++ k_ n :: r)
              | _, _ => None
              end
          end
      end
  end.

(** One single rotation somewhere in a tree. *)
Inductive rot1 : tree -> tree -> Prop :=
| rot1_here i t : child t i <> E -> rot1 t (rotate i t)
| rot1_left l l' a x v r : rot1 l l' -> rot1 (T l a x v r) (T l' a x v r)
| rot1_right l a x v r r' : rot1 r r' -> rot1 (T l a x v r) (T l a x v r').

(** A chain of [n] single rotations. *)
Inductive rotn : nat -> tree -> tree -> Prop :=
| rotn_O t : rotn O t t
| rotn_S n t1 t2 t3 : rotn n t1 t2 -> rot1 t2 t3 -> rotn (S n) t1 t3.

(** The value of the first entry with key [k] in a sequence of entries. *)
Fixpoint first_value (k : Z) (es : list (Z * Z)) : option Z :=
  match es with
  | [] => None
  | (x, v) :: es => if x =? k then Some v else first_value k es
  end.

(** What a call does to the tree a handle owns; [a] is the address a new
    node would get. *)
Definition tree_step (a : addr) (o : op) (t : tree) : tree :=
  match o with
  | OpAdd k v => ins t a k v
  | OpFind k => default t (splay t k)
  | OpRemove k =>
      match splay t k with
      | Some t1 => delete_root t1
      | None => t
      end
  end.

(** Two heaps hold the same nodes with the same keys and values; only
    child links may differ. *)
Definition same_data (h h' : heap) : Prop :=
  forall a, (fun n => (k_ n, v_ n)) <$> h' !! a = (fun n => (k_ n, v_ n)) <$> h !! a.

(** The handle [s] owns the tree [t] in the heap [h], and its counter is
    the number of nodes of [t]. *)
Definition handle_at (h : heap) (s : SplayTree.t) (t : tree) : Prop :=
  tree_at h (SplayTree.tree_ s) t /\
  SplayTree.length_ s = Z.of_nat (length (addrs t)) /\
  SplayTree.length_ s < SplayTree.size_t_modulus.

(** The two helpers agree: the nested class signals a miss by a null
    result, the stand-alone class by the flag [r]. *)
Definition agree (r1 : result (ptr * ptr)) (r2 : result (ptr * ptr * bool)) : Prop :=
  match r1 with
  | Ok (Some c, p) h => r2 = Ok (Some c, p, true) h
  | Ok (None, p) h => exists n, r2 = Ok (n, p, false) h
  | Fault => r2 = Fault
  | OutOfFuel => r2 = OutOfFuel
  end.

(** The lines [Print] writes for a tree, right subtree first: the depth,
    the tag and the key of each. *)
Fixpoint rows (t : tree) (c : ascii) (d : Z) : list (Z * ascii * Z) :=
  match t with
  | E => []
  | T l _ k _ r => rows r "R"%char (d + 1) ++ (d, c, k) :: rows l "L"%char (d + 1)
  end.

(** The text of one line: two spaces per level, the tag, a colon, the
    key, a newline. *)
Definition row_text (fmt_G : Z -> string) (row : Z * ascii * Z) : string :=
  let '(d, c, k) := row in
  SplayTree.Node.indent (Z.to_nat d) +:+ String c (":" +:+ fmt_G k +:+ String "010"%char "").

(** The text of a sequence of lines. *)
Fixpoint rows_text (fmt_G : Z -> string) (rs : list (Z * ascii * Z)) : string :=
  match rs with
  | [] => ""
  | row :: rs => row_text fmt_G row +:+ rows_text fmt_G rs
  end.

(** A sequence of entries without its first entry with key [k]. *)
Fixpoint remove_first (k : Z) (es : list (Z * Z)) : list (Z * Z) :=
  match es with
  | [] => []
  | (x, v) :: es => if x =? k then es else (x, v) :: remove_first k es
  end.

(** A sequence of entries with [(k, v)] put in front of the first entry
    whose key is larger than [k]. *)
Fixpoint insert_after (k v : Z) (es : list (Z * Z)) : list (Z * Z) :=
  match es with
  | [] => [(k, v)]
  | (x, w) :: es' => if x <=? k then (x, w) :: insert_after k v es' else (k, v) :: es
  end.

(** Stable insertion sort by key: the entries inserted one after the
    other, first to last. *)
Definition stable_sort (kvs : list (Z * Z)) : list (Z * Z) :=
  foldl (fun es kv => insert_after kv.1 kv.2 es) [] kvs.

(** The heap [h] is the heap [h0] and, apart from it, the nodes of [t]. *)
Definition extends (h0 h : heap) (t : tree) : Prop :=
  (forall a, a ∈ addrs t -> h0 !! a = None) /\
  (forall a, a ∉ addrs t -> h !! a = h0 !! a).

(** *** Sample data *)

(** A heap holding four nodes: the key 5 at the root, 3 to its left, 9 to
    its right, and 7 to the left of 9. *)
Definition sample_heap : heap :=
  <[1%positive := mkNode (Some 2%positive) (Some 3%positive) 5 50]>
    (<[2%positive := mkNode None None 3 30]>
       (<[3%positive := mkNode (Some 4%positive) None 9 90]>
          (<[4%positive := mkNode None None 7 70]> ∅))).

Definition sample_tree : tree :=
  T (T E 2 3 30 E) 1 5 50 (T (T E 4 7 70 E) 3 9 90 E).

Definition sample_handle : SplayTree.t := SplayTree.mk (Some 1%positive) 4.

(** The same heap after a search for the key 7. *)
Definition sample_heap_found : heap :=
  <[1%positive := mkNode (Some 2%positive) None 5 50]>
    (<[2%positive := mkNode None None 3 30]>
       (<[3%positive := mkNode None None 9 90]>
          (<[4%positive := mkNode (Some 1%positive) (Some 3%positive) 7 70]> ∅))).

(** A heap holding the key 1 twice: what [Add(1, 10)] and [Add(1, 11)]
    build from nothing. *)
Definition twin_heap : heap :=
  <[1%positive := mkNode None (Some 2%positive) 1 10]>
    (<[2%positive := mkNode None None 1 11]> ∅).

Definition twin_tree : tree := T E 1 1 10 (T E 2 1 11 E).

(** What [%G] writes for an integer of at most six digits: its decimal
    numeral. *)
Definition fmt_G_small (k : Z) : string := pretty k.

(** Calls for the samples. *)
Definition sample_ops : list op :=
  [OpAdd 1 10; OpAdd 2 20; OpRemove 1; OpFind 2; OpAdd 2 21].

(** * Properties *)

(** ** Running the heap monad *)

Lemma bind_ok {A B} (m : M A) (f : A -> M B) h a h' :
  m h = Ok a h' -> bind m f h = f a h'.
Proof. unfold bind. by intros ->. Qed.

Lemma bind_ret {A B} (a : A) (f : A -> M B) h : bind (ret a) f h = f a h.
Proof. done. Qed.

Lemma bind_bind {A B C} (m : M A) (f : A -> M B) (g : B -> M C) h :
  bind (bind m f) g h = bind m (fun x => bind (f x) g) h.
Proof. unfold bind. by destruct (m h). Qed.

Lemma bind_key {B} (h : heap) (f : Z -> M B) a n :
  h !! a = Some n -> bind (key (Some a)) f h = f (k_ n) h.
Proof. unfold key, bind, load, ret. by intros ->. Qed.

Lemma bind_val {B} (h : heap) (f : Z -> M B) a n :
  h !! a = Some n -> bind (val (Some a)) f h = f (v_ n) h.
Proof. unfold val, bind, load, ret. by intros ->. Qed.

Lemma bind_get_c {B} (h : heap) (f : ptr -> M B) a n i :
  h !! a = Some n -> bind (get_c (Some a) i) f h = f (c_ n i) h.
Proof. unfold get_c, bind, load, ret. by intros ->. Qed.

Lemma bind_put_c {B} (h : heap) (f : unit -> M B) a n i q :
  h !! a = Some n -> bind (put_c (Some a) i q) f h = f tt (<[a := set_c n i q]> h).
Proof. unfold bind, put_c. by intros ->. Qed.

Lemma bind_delete_Node {B} (h : heap) (f : unit -> M B) a n :
  h !! a = Some n -> bind (delete_Node (Some a)) f h = f tt (delete a h).
Proof. unfold bind, delete_Node. by intros ->. Qed.

(** ** Trees in heaps *)

Lemma repr_ext (h h' : heap) t :
  (forall a, a ∈ addrs t -> h' !! a = h !! a) -> repr h t -> repr h' t.
Proof.
  induction t as [|l IHl a k v r IHr]; simpl; [done|].
  intros Hext (Ha & Hl & Hr). split_and!.
  - rewrite Hext; [done|]. set_solver.
  - apply IHl; [|done]. intros b Hb. apply Hext. set_solver.
  - apply IHr; [|done]. intros b Hb. apply Hext. set_solver.
Qed.

Lemma repr_insert_fresh (h : heap) t a n :
  a ∉ addrs t -> repr h t -> repr (<[a := n]> h) t.
Proof.
  intros Ha. apply repr_ext. intros b Hb.
  apply lookup_insert_ne. intros ->. done.
Qed.

Lemma repr_delete_fresh (h : heap) t a :
  a ∉ addrs t -> repr h t -> repr (delete a h) t.
Proof.
  intros Ha. apply repr_ext. intros b Hb.
  apply lookup_delete_ne. intros ->. done.
Qed.

Lemma repr_dom (h : heap) t a : repr h t -> a ∈ addrs t -> a ∈ dom h.
Proof.
  induction t as [|l IHl b k v r IHr]; simpl; [set_solver|].
  intros (Hb & Hl & Hr) Ha. apply elem_of_app in Ha as [Ha|Ha]; [by apply IHl|].
  apply elem_of_cons in Ha as [->|Ha]; [|by apply IHr].
  apply elem_of_dom. by eexists.
Qed.

Lemma repr_not_dom (h : heap) t a : repr h t -> a ∉ dom h -> a ∉ addrs t.
Proof. intros Hr Ha Hin. apply Ha. by eapply repr_dom. Qed.

(** A heap holds at most one tree from a given pointer. *)
Lemma repr_functional (h : heap) t1 t2 :
  root t1 = root t2 -> repr h t1 -> repr h t2 -> t1 = t2.
Proof.
  revert t2. induction t1 as [|l IHl a k v r IHr]; intros [|l2 a2 k2 v2 r2]; simpl;
    try done.
  intros [= <-] (Ha & Hl & Hr) (Ha2 & Hl2 & Hr2).
  rewrite Ha in Ha2. injection Ha2 as Hrl Hrr <- <-.
  f_equal; [apply IHl | apply IHr]; auto.
Qed.

Lemma NoDup_node l a r :
  NoDup (addrs l ++ a :: addrs r) <->
  NoDup (addrs l) /\ NoDup (addrs r) /\ (a ∉ addrs l) /\ (a ∉ addrs r) /\
  (forall b, b ∈ addrs l -> b ∉ addrs r).
Proof.
  rewrite NoDup_app, NoDup_cons. setoid_rewrite elem_of_cons. naive_solver.
Qed.

Lemma perm_under {A} (a b : A) l1 l2 l2' :
  l2' ≡ₚ a :: l2 -> l1 ++ b :: l2' ≡ₚ a :: l1 ++ b :: l2.
Proof.
  intros ->. rewrite (Permutation_middle l1 (b :: l2) a).
  apply Permutation_app_head, perm_swap.
Qed.

Lemma perm_over {A} (a b : A) l1 l1' l2 :
  l1' ≡ₚ a :: l1 -> l1' ++ b :: l2 ≡ₚ a :: l1 ++ b :: l2.
Proof. by intros ->. Qed.

(** Membership of addresses in in-order sequences: split every
    hypothesis down to atoms, then close the goal by contradiction. *)
Lemma disjoint_app_r {A} (l1 l2 l3 : list A) :
  (forall b, b ∈ l1 -> b ∉ l2 ++ l3) ->
  (forall b, b ∈ l1 -> b ∉ l2) /\ (forall b, b ∈ l1 -> b ∉ l3).
Proof.
  intros H; split; intros b Hb Hb'; apply (H b Hb), elem_of_app; auto.
Qed.

Lemma disjoint_cons_r {A} (l1 l3 : list A) x :
  (forall b, b ∈ l1 -> b ∉ x :: l3) ->
  (x ∉ l1) /\ (forall b, b ∈ l1 -> b ∉ l3).
Proof.
  intros H; split.
  - intros Hx. apply (H x Hx), elem_of_cons; auto.
  - intros b Hb Hb'. apply (H b Hb), elem_of_cons; auto.
Qed.

Lemma disjoint_app_l {A} (l1 l2 l3 : list A) :
  (forall b, b ∈ l1 ++ l2 -> b ∉ l3) ->
  (forall b, b ∈ l1 -> b ∉ l3) /\ (forall b, b ∈ l2 -> b ∉ l3).
Proof.
  intros H; split; intros b Hb; apply H, elem_of_app; auto.
Qed.

Lemma disjoint_cons_l {A} (l2 l3 : list A) x :
  (forall b, b ∈ x :: l2 -> b ∉ l3) ->
  (x ∉ l3) /\ (forall b, b ∈ l2 -> b ∉ l3).
Proof.
  intros H; split.
  - apply H, elem_of_cons; auto.
  - intros b Hb. apply H, elem_of_cons; auto.
Qed.

Ltac split_mem :=
  repeat match goal with
    | H : _ ∉ _ ++ _ |- _ => apply not_elem_of_app in H as [? ?]
    | H : _ ∉ _ :: _ |- _ => apply not_elem_of_cons in H as [? ?]
    | H : _ ∈ _ ++ _ |- _ => apply elem_of_app in H as [?|?]
    | H : _ ∈ _ :: _ |- _ => apply elem_of_cons in H as [?|?]
    | H : _ ∈ [] |- _ => by apply elem_of_nil in H
    | H : forall b, b ∈ _ -> b ∉ _ ++ _ |- _ => apply disjoint_app_r in H as [? ?]
    | H : forall b, b ∈ _ -> b ∉ _ :: _ |- _ => apply disjoint_cons_r in H as [? ?]
    | H : forall b, b ∈ _ ++ _ -> b ∉ _ |- _ => apply disjoint_app_l in H as [? ?]
    | H : forall b, b ∈ _ :: _ -> b ∉ _ |- _ => apply disjoint_cons_l in H as [? ?]
    end.

Ltac mem_close :=
  solve [ done | congruence
        | match goal with
          | Hd : forall b, b ∈ _ -> b ∉ _ |- _ => eapply Hd; eassumption
          end ].

(** Goals [x <> y] and [x ∉ l]. *)
Ltac mem_solve :=
  simpl in *;
  let H := fresh "Hmem" in
  intros H; split_mem; try subst; mem_close.

(** ** Insertion *)


Lemma addrs_ins t a k v : addrs (ins t a k v) ≡ₚ a :: addrs t.
Proof.
  induction t as [|l IHl b x w r IHr]; simpl; [done|].
  case_match; simpl.
  - by apply perm_under.
  - by apply perm_over.
Qed.

Lemma keys_ins t a k v : keys (ins t a k v) ≡ₚ k :: keys t.
Proof.
  induction t as [|l IHl b x w r IHr]; simpl; [done|].
  case_match; simpl.
  - by apply perm_under.
  - by apply perm_over.
Qed.

Lemma entries_ins t a k v : entries (ins t a k v) ≡ₚ (k, v) :: entries t.
Proof.
  induction t as [|l IHl b x w r IHr]; simpl; [done|].
  case_match; simpl.
  - by apply perm_under.
  - by apply perm_over.
Qed.

Lemma bst_ins t a k v : bst t -> bst (ins t a k v).
Proof.
  induction t as [|l IHl b x w r IHr]; simpl.
  - intros _. by repeat constructor.
  - intros (Hl & Hr & Bl & Br). destruct (Z.leb_spec x k); simpl; split_and!; auto.
    + rewrite keys_ins. by constructor.
    + rewrite keys_ins. by constructor.
Qed.

(** [Add] on a heap that holds [t] allocates one node and leaves the heap
    holding [ins t]; nothing outside [t] is touched. *)
Lemma Add_spec t : forall fuel (h : heap) k v,
  repr h t -> NoDup (addrs t) -> (height t < fuel)%nat ->
  let a := fresh (dom h) in
  exists h',
    SplayTree.Node.Add fuel (root t) k v h = Ok (root (ins t a k v)) h' /\
    repr h' (ins t a k v) /\
    (forall b, b ∉ addrs t -> b <> a -> h' !! b = h !! b) /\
    dom h' = {[a]} ∪ dom h.
Proof.
  induction t as [|l IHl b x w r IHr]; intros fuel h k v Hrep Hnd Hfuel a;
    (destruct fuel as [|fuel]; [lia|]); simpl.
  - exists (<[a := mkNode None None k v]> h). split_and!; try done.
    + by rewrite lookup_insert_eq.
    + intros c _ Hc. by rewrite lookup_insert_ne.
    + by rewrite dom_insert_L.
  - destruct Hrep as (Hb & Hl & Hr).
    apply NoDup_node in Hnd as (Ndl & Ndr & Hbl & Hbr & Hlr).
    assert (Hfresh : a ∉ dom h) by apply is_fresh.
    assert (Hab : b <> a).
    { intros ->. apply Hfresh, elem_of_dom. by eexists. }
    simpl in Hfuel.
    erewrite bind_key by done. erewrite bind_get_c by done. simpl.
    destruct (x <=? k); simpl.
    + destruct (IHr fuel h k v Hr Ndr ltac:(lia)) as (h1 & Hrun & Hrep1 & Hfr1 & Hdom1).
      fold a in Hrun, Hrep1, Hfr1, Hdom1. clearbody a.
      erewrite bind_ok by exact Hrun.
      erewrite bind_put_c by (rewrite Hfr1; done). unfold ret; simpl.
      eexists. split_and!; [done| | | | |].
      * by rewrite lookup_insert_eq.
      * apply repr_insert_fresh; [done|]. eapply repr_ext; [|exact Hl].
        intros c Hc. apply Hfr1; [by apply Hlr|].
        intros ->. by apply (repr_not_dom h l a).
      * apply repr_insert_fresh; [|done].
        rewrite addrs_ins. set_solver.
      * intros c Hc Hca. rewrite lookup_insert_ne by mem_solve.
        apply Hfr1; [set_solver|done].
      * rewrite dom_insert_L, Hdom1.
        assert (b ∈ dom h) by (apply elem_of_dom; by eexists). set_solver.
    + destruct (IHl fuel h k v Hl Ndl ltac:(lia)) as (h1 & Hrun & Hrep1 & Hfr1 & Hdom1).
      fold a in Hrun, Hrep1, Hfr1, Hdom1. clearbody a.
      erewrite bind_ok by exact Hrun.
      erewrite bind_put_c by (rewrite Hfr1; done). unfold ret; simpl.
      eexists. split_and!; [done| | | | |].
      * by rewrite lookup_insert_eq.
      * apply repr_insert_fresh; [|done].
        rewrite addrs_ins. set_solver.
      * apply repr_insert_fresh; [done|]. eapply repr_ext; [|exact Hr].
        intros c Hc. apply Hfr1; [intros ?; by eapply Hlr|].
        intros ->. by apply (repr_not_dom h r a).
      * intros c Hc Hca. rewrite lookup_insert_ne by mem_solve.
        apply Hfr1; [set_solver|done].
      * rewrite dom_insert_L, Hdom1.
        assert (b ∈ dom h) by (apply elem_of_dom; by eexists). set_solver.
Qed.

(** ** Move-to-root search on trees *)

Arguments rotate : simpl never.

Lemma rotate_addrs i t : addrs (rotate i t) = addrs t.
Proof.
  destruct t as [|l a x v r]; [done|].
  destruct i; unfold rotate.
  - destruct r; simpl; [done|]. by rewrite <- app_assoc.
  - destruct l; simpl; [done|]. by rewrite <- app_assoc.
Qed.

Lemma rotate_keys i t : keys (rotate i t) = keys t.
Proof.
  destruct t as [|l a x v r]; [done|].
  destruct i; unfold rotate.
  - destruct r; simpl; [done|]. by rewrite <- app_assoc.
  - destruct l; simpl; [done|]. by rewrite <- app_assoc.
Qed.

Lemma rotate_entries i t : entries (rotate i t) = entries t.
Proof.
  destruct t as [|l a x v r]; [done|].
  destruct i; unfold rotate.
  - destruct r; simpl; [done|]. by rewrite <- app_assoc.
  - destruct l; simpl; [done|]. by rewrite <- app_assoc.
Qed.

(** What [splay] does at a node whose key differs from the one sought. *)
Lemma splay_node l a x v r k :
  splay (T l a x v r) k =
    if k =? x then Some (T l a x v r)
    else if k >? x
         then (fun r' => rotate true (T l a x v r')) <$> splay r k
         else (fun l' => rotate false (T l' a x v r)) <$> splay l k.
Proof.
  simpl. destruct (k =? x); [done|].
  destruct (k >? x); [by destruct (splay r k)|by destruct (splay l k)].
Qed.

(** A successful search ends with the key sought at the root. *)
Lemma splay_root t k t' :
  splay t k = Some t' -> exists l a v r, t' = T l a k v r.
Proof.
  revert t'. induction t as [|l IHl a x v r IHr]; intros t'; [done|].
  rewrite splay_node. destruct (Z.eqb_spec k x) as [->|Hne].
  - intros [= <-]. by do 4 eexists.
  - destruct (k >? x).
    + destruct (splay r k) as [r'|]; [|done]. intros [= <-].
      destruct (IHr r' eq_refl) as (rl & b & w & rr & ->). by do 4 eexists.
    + destruct (splay l k) as [l'|]; [|done]. intros [= <-].
      destruct (IHl l' eq_refl) as (ll & b & w & lr & ->). by do 4 eexists.
Qed.

(** The search keeps the in-order sequence of nodes. *)
Lemma splay_addrs t k t' : splay t k = Some t' -> addrs t' = addrs t.
Proof.
  revert t'. induction t as [|l IHl a x v r IHr]; intros t'; [done|].
  rewrite splay_node. destruct (k =? x); [by intros [= <-]|].
  destruct (k >? x).
  - destruct (splay r k) as [r'|]; [|done]. intros [= <-].
    rewrite rotate_addrs. simpl. by rewrite (IHr r').
  - destruct (splay l k) as [l'|]; [|done]. intros [= <-].
    rewrite rotate_addrs. simpl. by rewrite (IHl l').
Qed.

Lemma splay_keys t k t' : splay t k = Some t' -> keys t' = keys t.
Proof.
  revert t'. induction t as [|l IHl a x v r IHr]; intros t'; [done|].
  rewrite splay_node. destruct (k =? x); [by intros [= <-]|].
  destruct (k >? x).
  - destruct (splay r k) as [r'|]; [|done]. intros [= <-].
    rewrite rotate_keys. simpl. by rewrite (IHr r').
  - destruct (splay l k) as [l'|]; [|done]. intros [= <-].
    rewrite rotate_keys. simpl. by rewrite (IHl l').
Qed.

Lemma splay_entries t k t' : splay t k = Some t' -> entries t' = entries t.
Proof.
  revert t'. induction t as [|l IHl a x v r IHr]; intros t'; [done|].
  rewrite splay_node. destruct (k =? x); [by intros [= <-]|].
  destruct (k >? x).
  - destruct (splay r k) as [r'|]; [|done]. intros [= <-].
    rewrite rotate_entries. simpl. by rewrite (IHr r').
  - destruct (splay l k) as [l'|]; [|done]. intros [= <-].
    rewrite rotate_entries. simpl. by rewrite (IHl l').
Qed.

(** A key that is not in the tree is not found. *)
Lemma splay_absent t k : k ∉ keys t -> splay t k = None.
Proof.
  intros Hk. destruct (splay t k) as [t'|] eqn:Hs; [|done].
  destruct (splay_root _ _ _ Hs) as (l & a & v & r & ->).
  apply splay_keys in Hs. destruct Hk. rewrite <- Hs. simpl. set_solver.
Qed.

(** Sortedness of the in-order key sequence, as a property of the tree. *)
Lemma sorted_keys_node l a x v r :
  Sorted Z.le (keys (T l a x v r)) ->
  Sorted Z.le (keys l) /\ Sorted Z.le (keys r) /\
  Forall (fun y => y <= x) (keys l) /\ Forall (fun y => x <= y) (keys r).
Proof.
  simpl. intros Hs.
  apply (Sorted_StronglySorted _) in Hs.
  assert (Hl : StronglySorted Z.le (keys l)).
  { clear -Hs. induction (keys l) as [|y ys IH]; [constructor|].
    simpl in Hs. inversion Hs as [|? ? Hs' Hall]; subst.
    constructor; [by apply IH|]. apply Forall_app in Hall. tauto. }
  assert (Hr : StronglySorted Z.le (x :: keys r) /\ Forall (fun y => y <= x) (keys l)).
  { clear -Hs. induction (keys l) as [|y ys IH]; [by split|].
    simpl in Hs. inversion Hs as [|? ? Hs' Hall]; subst.
    destruct (IH Hs') as [? ?]. split; [done|]. constructor; [|done].
    apply Forall_app in Hall as [_ Hall]. by inversion Hall. }
  destruct Hr as [Hr Hlx]. inversion Hr; subst.
  split_and!; auto using StronglySorted_Sorted.
Qed.

(** In a tree whose in-order key sequence is sorted, every key of the tree
    is found. *)
Lemma splay_present t k :
  Sorted Z.le (keys t) -> k ∈ keys t -> is_Some (splay t k).
Proof.
  induction t as [|l IHl a x v r IHr]; [by intros _ ?%elem_of_nil|].
  intros Hs Hk. apply sorted_keys_node in Hs as (Sl & Sr & Hl & Hr).
  rewrite splay_node. destruct (Z.eqb_spec k x) as [->|Hne]; [done|].
  simpl in Hk. apply elem_of_app in Hk as [Hk|Hk%elem_of_cons].
  - assert (k <= x) by (by eapply Forall_forall in Hl).
    destruct (Z.gtb_spec k x); [lia|].
    destruct (IHl Sl Hk) as [l' ->]. done.
  - destruct Hk as [->|Hk]; [done|].
    assert (x <= k) by (by eapply Forall_forall in Hr).
    destruct (Z.gtb_spec k x); [|lia].
    destruct (IHr Sr Hk) as [r' ->]. done.
Qed.

Lemma splay_NoDup t k t' : splay t k = Some t' -> NoDup (addrs t) -> NoDup (addrs t').
Proof. intros Hs. by rewrite (splay_addrs _ _ _ Hs). Qed.

(** ** Search in the heap *)

(** Reassociate nested binds and drop returns at the head of a run. *)
Ltac norm_bind := repeat first [rewrite bind_bind | rewrite bind_ret].

(** Extend a representation across writes to addresses outside the tree. *)
Ltac repr_frame H :=
  eapply repr_ext; [|exact H];
  let c := fresh "c" in let Hc := fresh "Hc" in
  intros c Hc; simpl in *.

(** The helper on a heap that holds the subtree [s] below the node at
    [pa]: a miss changes nothing; a hit leaves the heap holding
    [splay s k], with link [i] of [pa] set to the subtree that the
    caller's pending assignment will displace. *)
Lemma Find_sub_spec s : forall fuel (h : heap) pa P k i,
  repr h s -> NoDup (addrs s) -> pa ∉ addrs s -> h !! pa = Some P ->
  (height s < fuel)%nat ->
  match splay s k with
  | None => SplayTree.Node.Find_sub fuel (root s) (Some pa) k i h = Ok (None, Some pa) h
  | Some s' =>
      exists h',
        SplayTree.Node.Find_sub fuel (root s) (Some pa) k i h = Ok (Some pa, root s') h' /\
        repr h' s' /\
        h' !! pa = Some (set_c P i (root (child s' (negb i)))) /\
        (forall b, b ∉ addrs s -> b <> pa -> h' !! b = h !! b)
  end.
Proof.
  induction s as [|l IHl a x v r IHr]; intros fuel h pa P k i Hrep Hnd Hpa HP Hfuel;
    (destruct fuel as [|fuel]; [lia|]); [done|].
  destruct Hrep as (Ha & Hl & Hr).
  apply NoDup_node in Hnd as (Ndl & Ndr & Hal & Har & Hlr).
  simpl in Hpa, Hfuel.
  rewrite splay_node. cbn [SplayTree.Node.Find_sub root].
  erewrite bind_key by done. cbn [k_].
  destruct (Z.eqb_spec k x) as [->|Hne]; cbn [negb].
  - (* the key is here *)
    unfold SplayTree.Node.ascend. erewrite bind_get_c by done.
    erewrite bind_put_c by done. unfold ret.
    eexists. split_and!; [done|..].
    + by apply repr_insert_fresh.
    + rewrite lookup_insert_eq. by destruct i.
    + intros b _ Hb. by rewrite lookup_insert_ne.
  - erewrite bind_get_c by done.
    destruct (k >? x); cbn [c_ c0 c1].
    + (* search to the right *)
      specialize (IHr fuel h a _ k true Hr Ndr Har Ha ltac:(lia)). clear IHl.
      destruct (splay r k) as [r'|] eqn:Hs; cbn [fmap option_fmap option_map].
      * destruct IHr as (h1 & Hrun & Hrep1 & Ha1 & Hfr1).
        destruct (splay_root _ _ _ Hs) as (rl & b & w & rr & ->).
        apply splay_addrs in Hs. simpl in Hs.
        rewrite <- Hs in *.
        apply NoDup_node in Ndr as (Ndrl & Ndrr & Hbrl & Hbrr & Hrlrr).
        destruct Hrep1 as (Hb1 & Hrl1 & Hrr1).
        erewrite bind_ok by exact Hrun. cbn [root negb].
        erewrite bind_put_c by done.
        unfold SplayTree.Node.ascend.
        erewrite bind_get_c by (by rewrite lookup_insert_eq).
        erewrite bind_put_c; cycle 1.
        { rewrite lookup_insert_ne by mem_solve.
          rewrite Hfr1 by mem_solve. done. }
        unfold ret, rotate. eexists. cbn [repr]. split_and!; [done|..].
        -- rewrite lookup_insert_ne by mem_solve.
           by rewrite lookup_insert_eq.
        -- rewrite lookup_insert_ne by mem_solve.
           rewrite lookup_insert_ne by mem_solve.
           by rewrite Ha1.
        -- repr_frame Hl. rewrite !lookup_insert_ne by mem_solve.
           apply Hfr1; mem_solve.
        -- repr_frame Hrl1. rewrite !lookup_insert_ne by mem_solve. done.
        -- repr_frame Hrr1. rewrite !lookup_insert_ne by mem_solve. done.
        -- rewrite lookup_insert_eq. by destruct i.
        -- intros c Hc Hcpa. simpl in Hc. rewrite <- Hs in Hc.
           rewrite !lookup_insert_ne by mem_solve.
           apply Hfr1; mem_solve.
      * erewrite bind_ok by exact IHr. done.
    + (* search to the left *)
      specialize (IHl fuel h a _ k false Hl Ndl Hal Ha ltac:(lia)). clear IHr.
      destruct (splay l k) as [l'|] eqn:Hs; cbn [fmap option_fmap option_map].
      * destruct IHl as (h1 & Hrun & Hrep1 & Ha1 & Hfr1).
        destruct (splay_root _ _ _ Hs) as (ll & b & w & lr & ->).
        apply splay_addrs in Hs. simpl in Hs.
        rewrite <- Hs in *.
        apply NoDup_node in Ndl as (Ndll & Ndlr & Hbll & Hblr & Hlllr).
        destruct Hrep1 as (Hb1 & Hll1 & Hlr1).
        erewrite bind_ok by exact Hrun. cbn [root negb].
        erewrite bind_put_c by done.
        unfold SplayTree.Node.ascend.
        erewrite bind_get_c by (by rewrite lookup_insert_eq).
        erewrite bind_put_c; cycle 1.
        { rewrite lookup_insert_ne by mem_solve.
          rewrite Hfr1 by mem_solve. done. }
        unfold ret, rotate. eexists. cbn [repr]. split_and!; [done|..].
        -- rewrite lookup_insert_ne by mem_solve.
           by rewrite lookup_insert_eq.
        -- repr_frame Hll1. rewrite !lookup_insert_ne by mem_solve. done.
        -- rewrite lookup_insert_ne by mem_solve.
           rewrite lookup_insert_ne by mem_solve.
           by rewrite Ha1.
        -- repr_frame Hlr1. rewrite !lookup_insert_ne by mem_solve. done.
        -- repr_frame Hr. rewrite !lookup_insert_ne by mem_solve.
           apply Hfr1; mem_solve.
        -- rewrite lookup_insert_eq. by destruct i.
        -- intros c Hc Hcpa. simpl in Hc. rewrite <- Hs in Hc.
           rewrite !lookup_insert_ne by mem_solve.
           apply Hfr1; mem_solve.
      * erewrite bind_ok by exact IHl. done.
Qed.

(** The entry point: a miss changes neither the heap nor the root; a hit
    leaves the heap holding [splay t k] and returns its root, which is
    also the new value of the caller's root pointer. *)
Lemma Find_spec t fuel (h : heap) k :
  repr h t -> NoDup (addrs t) -> (height t <= fuel)%nat ->
  match splay t k with
  | None => SplayTree.Node.Find fuel (root t) k h = Ok (None, root t) h
  | Some t' =>
      exists h',
        SplayTree.Node.Find fuel (root t) k h = Ok (root t', root t') h' /\
        repr h' t' /\
        (forall b, b ∉ addrs t -> h' !! b = h !! b)
  end.
Proof.
  destruct t as [|l a x v r]; intros Hrep Hnd Hfuel; [done|].
  destruct Hrep as (Ha & Hl & Hr).
  apply NoDup_node in Hnd as (Ndl & Ndr & Hal & Har & Hlr).
  simpl in Hfuel.
  rewrite splay_node. cbn [SplayTree.Node.Find root].
  erewrite bind_key by done. cbn [k_].
  destruct (Z.eqb_spec k x) as [->|Hne]; cbn [negb].
  - exists h. by split_and!.
  - erewrite bind_get_c by done.
    destruct (k >? x); cbn [c_ c0 c1].
    + pose proof (Find_sub_spec r fuel h a _ k true Hr Ndr Har Ha ltac:(lia)) as Hsub.
      destruct (splay r k) as [r'|] eqn:Hs; cbn [fmap option_fmap option_map].
      * destruct Hsub as (h1 & Hrun & Hrep1 & Ha1 & Hfr1).
        destruct (splay_root _ _ _ Hs) as (rl & b & w & rr & ->).
        apply splay_addrs in Hs. simpl in Hs.
        rewrite <- Hs in *.
        apply NoDup_node in Ndr as (Ndrl & Ndrr & Hbrl & Hbrr & Hrlrr).
        destruct Hrep1 as (Hb1 & Hrl1 & Hrr1).
        erewrite bind_ok by exact Hrun. cbn [root negb].
        erewrite bind_put_c by done.
        unfold ret, rotate. eexists. cbn [repr]. split_and!; [done|..].
        -- by rewrite lookup_insert_eq.
        -- rewrite lookup_insert_ne by mem_solve. by rewrite Ha1.
        -- repr_frame Hl. rewrite !lookup_insert_ne by mem_solve.
           apply Hfr1; mem_solve.
        -- repr_frame Hrl1. rewrite !lookup_insert_ne by mem_solve. done.
        -- repr_frame Hrr1. rewrite !lookup_insert_ne by mem_solve. done.
        -- intros c Hc. simpl in Hc. rewrite <- Hs in Hc.
           rewrite !lookup_insert_ne by mem_solve.
           apply Hfr1; mem_solve.
      * erewrite bind_ok by exact Hsub. done.
    + pose proof (Find_sub_spec l fuel h a _ k false Hl Ndl Hal Ha ltac:(lia)) as Hsub.
      destruct (splay l k) as [l'|] eqn:Hs; cbn [fmap option_fmap option_map].
      * destruct Hsub as (h1 & Hrun & Hrep1 & Ha1 & Hfr1).
        destruct (splay_root _ _ _ Hs) as (ll & b & w & lr & ->).
        apply splay_addrs in Hs. simpl in Hs.
        rewrite <- Hs in *.
        apply NoDup_node in Ndl as (Ndll & Ndlr & Hbll & Hblr & Hlllr).
        destruct Hrep1 as (Hb1 & Hll1 & Hlr1).
        erewrite bind_ok by exact Hrun. cbn [root negb].
        erewrite bind_put_c by done.
        unfold ret, rotate. eexists. cbn [repr]. split_and!; [done|..].
        -- by rewrite lookup_insert_eq.
        -- repr_frame Hll1. rewrite !lookup_insert_ne by mem_solve. done.
        -- rewrite lookup_insert_ne by mem_solve. by rewrite Ha1.
        -- repr_frame Hlr1. rewrite !lookup_insert_ne by mem_solve. done.
        -- repr_frame Hr. rewrite !lookup_insert_ne by mem_solve.
           apply Hfr1; mem_solve.
        -- intros c Hc. simpl in Hc. rewrite <- Hs in Hc.
           rewrite !lookup_insert_ne by mem_solve.
           apply Hfr1; mem_solve.
      * erewrite bind_ok by exact Hsub. done.
Qed.

(** ** Deletion of the root *)

Lemma split_min_addrs l : forall a k v r c kc vc rest,
  split_min l a k v r = (c, kc, vc, rest) ->
  addrs (T l a k v r) = c :: addrs rest.
Proof.
  induction l as [|ll IHll b y w lr _]; intros a k v r c kc vc rest; simpl.
  - by intros [= <- <- <- <-].
  - destruct (split_min ll b y w lr) as [[[c' kc'] vc'] l'] eqn:Hs.
    intros [= <- <- <- <-]. specialize (IHll _ _ _ _ _ _ _ _ Hs).
    simpl in IHll. simpl. by rewrite IHll.
Qed.

Lemma split_min_keys l : forall a k v r c kc vc rest,
  split_min l a k v r = (c, kc, vc, rest) ->
  keys (T l a k v r) = kc :: keys rest.
Proof.
  induction l as [|ll IHll b y w lr _]; intros a k v r c kc vc rest; simpl.
  - by intros [= <- <- <- <-].
  - destruct (split_min ll b y w lr) as [[[c' kc'] vc'] l'] eqn:Hs.
    intros [= <- <- <- <-]. specialize (IHll _ _ _ _ _ _ _ _ Hs).
    simpl in IHll. simpl. by rewrite IHll.
Qed.

Lemma split_min_entries l : forall a k v r c kc vc rest,
  split_min l a k v r = (c, kc, vc, rest) ->
  entries (T l a k v r) = (kc, vc) :: entries rest.
Proof.
  induction l as [|ll IHll b y w lr _]; intros a k v r c kc vc rest; simpl.
  - by intros [= <- <- <- <-].
  - destruct (split_min ll b y w lr) as [[[c' kc'] vc'] l'] eqn:Hs.
    intros [= <- <- <- <-]. specialize (IHll _ _ _ _ _ _ _ _ Hs).
    simpl in IHll. simpl. by rewrite IHll.
Qed.

(** Deleting the root drops exactly the root's place from each in-order
    sequence. *)
Lemma delete_root_addrs l a k v r :
  addrs (delete_root (T l a k v r)) = addrs l ++ addrs r.
Proof.
  simpl. destruct r as [|rl b y w rr]; [by rewrite app_nil_r|].
  destruct (split_min rl b y w rr) as [[[c kc] vc] r'] eqn:Hs.
  apply split_min_addrs in Hs. simpl in *. by rewrite Hs.
Qed.

Lemma delete_root_keys l a k v r :
  keys (delete_root (T l a k v r)) = keys l ++ keys r.
Proof.
  simpl. destruct r as [|rl b y w rr]; [by rewrite app_nil_r|].
  destruct (split_min rl b y w rr) as [[[c kc] vc] r'] eqn:Hs.
  apply split_min_keys in Hs. simpl in *. by rewrite Hs.
Qed.

Lemma delete_root_entries l a k v r :
  entries (delete_root (T l a k v r)) = entries l ++ entries r.
Proof.
  simpl. destruct r as [|rl b y w rr]; [by rewrite app_nil_r|].
  destruct (split_min rl b y w rr) as [[[c kc] vc] r'] eqn:Hs.
  apply split_min_entries in Hs. simpl in *. by rewrite Hs.
Qed.

(** The loop stops at the leftmost node [c] of the tree it starts from.
    When that is not the starting node, [p] is its parent, and storing
    the right link of [c] into the left link of [p] leaves the heap
    holding the tree without [c]. *)
Lemma leftmost_spec l : forall a k v r fuel (h : heap) p0,
  repr h (T l a k v r) -> NoDup (addrs (T l a k v r)) ->
  (height l < fuel)%nat ->
  forall c kc vc rest, split_min l a k v r = (c, kc, vc, rest) ->
  exists cr,
    h !! c = Some (mkNode None cr kc vc) /\
    match l with
    | E => SplayTree.Node.leftmost fuel p0 (Some a) h = Ok (p0, Some a) h
    | T _ _ _ _ _ =>
        exists pm Pm,
          SplayTree.Node.leftmost fuel p0 (Some a) h = Ok (Some pm, Some c) h /\
          h !! pm = Some Pm /\ pm ∈ addrs rest /\ root rest = Some a /\
          repr (<[pm := set_c Pm false cr]> h) rest
    end.
Proof.
  induction l as [|ll IHll b y w lr _];
    intros a k v r fuel h p0 Hrep Hnd Hfuel c kc vc rest Hsplit;
    (destruct fuel as [|fuel]; [lia|]).
  - injection Hsplit as <- <- <- <-. destruct Hrep as (Ha & _ & Hr).
    exists (root r). split; [done|].
    cbn [SplayTree.Node.leftmost]. erewrite bind_get_c by done. done.
  - cbn [split_min] in Hsplit.
    destruct (split_min ll b y w lr) as [[[c' kc'] vc'] l'] eqn:Hs.
    injection Hsplit as <- <- <- <-.
    destruct Hrep as (Ha & Hl & Hr).
    pose proof Hnd as Hnd'.
    apply NoDup_node in Hnd as (Ndl & Ndr & Hal & Har & Hlr).
    simpl in Hfuel.
    destruct (IHll b y w lr fuel h (Some a) Hl Ndl ltac:(lia) _ _ _ _ Hs)
      as (cr & Hc & Hloop).
    pose proof (split_min_addrs _ _ _ _ _ _ _ _ _ Hs) as Hadd.
    exists cr. split; [done|].
    cbn [SplayTree.Node.leftmost]. erewrite bind_get_c by done. cbn [c_ c0 root].
    destruct ll as [|lll b' y' w' llr].
    + injection Hs as <- <- <- <-.
      exists a, (mkNode (Some b) (root r) k v). rewrite Hloop.
      split_and!; [done|done|set_solver|done|].
      destruct Hl as (Hb & _ & Hlr').
      rewrite Hb in Hc. injection Hc as <-.
      cbn [repr]. split_and!.
      * by rewrite lookup_insert_eq.
      * apply repr_insert_fresh; [|done]. simpl in Hal. set_solver.
      * by apply repr_insert_fresh.
    + destruct Hloop as (pm & Pm & Hrun & Hpm & Hin & Hroot & Hrep').
      exists pm, Pm. rewrite Hrun.
      assert (Hpml : pm ∈ addrs (T (T lll b' y' w' llr) b y w lr)).
      { rewrite Hadd. set_solver. }
      split_and!; [done|done|set_solver|done|].
      cbn [repr]. split_and!.
      * rewrite lookup_insert_ne by (intros ->; done).
        by rewrite Hroot.
      * done.
      * apply repr_insert_fresh; [|done]. intros ?. by eapply Hlr.
Qed.

(** [DeleteRoot] frees the root and leaves the heap holding
    [delete_root t]; nothing outside [t] is touched. *)
Lemma DeleteRoot_spec t fuel (h : heap) :
  repr h t -> NoDup (addrs t) -> (height t <= fuel)%nat ->
  exists h',
    SplayTree.Node.DeleteRoot fuel (root t) h = Ok (root (delete_root t)) h' /\
    repr h' (delete_root t) /\
    (forall b, b ∉ addrs t -> h' !! b = h !! b) /\
    (forall a, root t = Some a -> h' !! a = None).
Proof.
  destruct t as [|l a k v r]; intros Hrep Hnd Hfuel.
  { exists h. by split_and!. }
  destruct Hrep as (Ha & Hl & Hr).
  pose proof Hnd as Hnd'.
  apply NoDup_node in Hnd as (Ndl & Ndr & Hal & Har & Hlr).
  simpl in Hfuel.
  cbn [SplayTree.Node.DeleteRoot root]. erewrite bind_get_c by done. cbn [c_ c1].
  destruct r as [|rl b y w rr].
  - (* no right child *)
    cbn [root]. erewrite bind_get_c by done.
    erewrite bind_delete_Node by done. unfold ret. cbn [c_ c0 delete_root].
    eexists. split_and!; [done|..].
    + by apply repr_delete_fresh.
    + intros c Hc. rewrite lookup_delete_ne by mem_solve. done.
    + intros ? [= <-]. by rewrite lookup_delete_eq.
  - cbn [root delete_root].
    destruct (split_min rl b y w rr) as [[[c kc] vc] rest] eqn:Hs.
    destruct (leftmost_spec rl b y w rr fuel h None Hr Ndr ltac:(simpl in Hfuel; lia)
                _ _ _ _ Hs) as (cr & Hc & Hloop).
    pose proof (split_min_addrs _ _ _ _ _ _ _ _ _ Hs) as Hadd.
    rewrite Hadd in *.
    apply NoDup_cons in Ndr as [Hcrest Ndrest].
    rewrite bind_bind.
    destruct rl as [|rll b' y' w' rlr].
    + (* the right child is the successor *)
      injection Hs as <- <- <- <-.
      erewrite bind_ok by exact Hloop. cbn beta iota.
      norm_bind.
      erewrite bind_get_c by done. norm_bind.
      erewrite bind_put_c by done.
      norm_bind.
      erewrite bind_delete_Node; cycle 1.
      { rewrite lookup_insert_ne by mem_solve. done. }
      unfold ret. destruct Hr as (Hb & _ & Hrr).
      rewrite Hb in Hc. injection Hc as <-.
      eexists. cbn [repr]. split_and!; [done|..].
      * rewrite lookup_delete_ne by mem_solve. by rewrite lookup_insert_eq.
      * apply repr_delete_fresh; [done|].
        apply repr_insert_fresh; [mem_solve|done].
      * apply repr_delete_fresh; [mem_solve|].
        apply repr_insert_fresh; [done|done].
      * intros d Hd. simpl in Hd.
        rewrite lookup_delete_ne by mem_solve.
        rewrite lookup_insert_ne by mem_solve. done.
      * intros ? [= <-]. by rewrite lookup_delete_eq.
    + (* the successor is deeper: splice it out *)
      destruct Hloop as (pm & Pm & Hrun & Hpm & Hin & Hroot & Hrep').
      assert (Hpmc : pm <> c) by (intros ->; done).
      assert (Hpma : pm <> a) by mem_solve.
      assert (Hca : c <> a) by mem_solve.
      erewrite bind_ok by exact Hrun. cbn beta iota.
      norm_bind.
      erewrite bind_get_c by done. cbn [c_ c1].
      norm_bind.
      erewrite bind_put_c by done.
      norm_bind.
      erewrite bind_get_c by (rewrite lookup_insert_ne by done; done).
      cbn [c_ c1 root].
      erewrite bind_put_c by (rewrite lookup_insert_ne by done; done).
      norm_bind.
      erewrite bind_get_c;
        [|rewrite !lookup_insert_ne by done; done].
      norm_bind.
      erewrite bind_put_c by (by rewrite lookup_insert_eq).
      norm_bind.
      erewrite bind_delete_Node; cycle 1.
      { rewrite !lookup_insert_ne by done. done. }
      unfold ret. eexists. cbn [repr]. split_and!; [done|..].
      * rewrite lookup_delete_ne by done. rewrite lookup_insert_eq.
        by rewrite Hroot.
      * apply repr_delete_fresh; [done|].
        repr_frame Hl. rewrite !lookup_insert_ne by mem_solve. done.
      * apply repr_delete_fresh; [mem_solve|].
        repr_frame Hrep'. rewrite !lookup_insert_ne by mem_solve. done.
      * intros d Hd.
        assert (Hd' : d ∉ addrs l ++ a :: c :: addrs rest)
          by (rewrite <- Hadd; exact Hd).
        clear Hd.
        rewrite lookup_delete_ne by mem_solve.
        rewrite !lookup_insert_ne by mem_solve. done.
      * intros ? [= <-]. by rewrite lookup_delete_eq.
Qed.

(** ** Inversion of runs, and what a run cannot change *)

Lemma bind_inv {A B} (m : M A) (f : A -> M B) h b h' :
  bind m f h = Ok b h' -> exists a h1, m h = Ok a h1 /\ f a h1 = Ok b h'.
Proof. unfold bind. destruct (m h) as [a h1| |]; [|done..]. by exists a, h1. Qed.

Lemma load_inv p (h : heap) n h' :
  load p h = Ok n h' -> h' = h /\ exists a, p = Some a /\ h !! a = Some n.
Proof.
  unfold load. destruct p as [a|]; [|done].
  destruct (h !! a) as [n'|] eqn:Ha; [|done]. intros [= <- <-]. eauto.
Qed.

Lemma key_inv p (h : heap) x h' : key p h = Ok x h' -> h' = h.
Proof.
  unfold key. intros (n & h1 & Hl & [= <- <-])%bind_inv.
  by apply load_inv in Hl as [-> _].
Qed.

Lemma get_c_inv p i (h : heap) q h' : get_c p i h = Ok q h' -> h' = h.
Proof.
  unfold get_c. intros (n & h1 & Hl & [= <- <-])%bind_inv.
  by apply load_inv in Hl as [-> _].
Qed.

Lemma put_c_inv p i q (h : heap) u h' :
  put_c p i q h = Ok u h' ->
  exists a n, p = Some a /\ h !! a = Some n /\ h' = <[a := set_c n i q]> h.
Proof.
  unfold put_c. destruct p as [a|]; [|done].
  destruct (h !! a) as [n|] eqn:Ha; [|done]. intros [= <- <-]. eauto.
Qed.


Lemma same_data_trans h1 h2 h3 :
  same_data h1 h2 -> same_data h2 h3 -> same_data h1 h3.
Proof. intros H12 H23 a. by rewrite H23, H12. Qed.

Lemma same_data_put_c p i q (h : heap) u h' :
  put_c p i q h = Ok u h' -> same_data h h'.
Proof.
  intros (a & n & -> & Ha & ->)%put_c_inv b.
  destruct (decide (a = b)) as [->|Hne].
  - rewrite lookup_insert_eq, Ha. by destruct i.
  - by rewrite lookup_insert_ne.
Qed.

Lemma same_data_dom (h h' : heap) : same_data h h' -> dom h' = dom h.
Proof.
  intros Hsd. apply set_eq. intros a. rewrite !elem_of_dom.
  specialize (Hsd a). destruct (h' !! a), (h !! a); simplify_eq/=;
    split; intros [? ?]; by simplify_eq.
Qed.

Lemma same_data_ascend n p i (h : heap) r h' :
  SplayTree.Node.ascend n p i h = Ok r h' -> same_data h h'.
Proof.
  unfold SplayTree.Node.ascend.
  intros (q & h1 & Hq & (u & h2 & Hput & [= <- <-])%bind_inv)%bind_inv.
  apply get_c_inv in Hq as ->. by eapply same_data_put_c.
Qed.

Lemma same_data_Find_sub fuel : forall n p k i (h : heap) r h',
  SplayTree.Node.Find_sub fuel n p k i h = Ok r h' -> same_data h h'.
Proof.
  induction fuel as [|fuel IH]; intros n p k i h r h'; [done|].
  cbn [SplayTree.Node.Find_sub]. destruct n as [a|]; [|by intros [= <- <-]].
  intros (nk & h1 & Hk & Hrest)%bind_inv. apply key_inv in Hk as ->.
  destruct (negb (k =? nk)); [|by eapply same_data_ascend].
  apply bind_inv in Hrest as (nj & h1 & Hj & Hrest). apply get_c_inv in Hj as ->.
  apply bind_inv in Hrest as ([c n'] & h1 & Hrec & Hrest).
  apply IH in Hrec. destruct c as [c|].
  - apply bind_inv in Hrest as (u & h2 & Hput & Hasc).
    apply same_data_put_c in Hput. apply same_data_ascend in Hasc.
    eauto using same_data_trans.
  - by injection Hrest as <- <-.
Qed.

Lemma same_data_Find fuel n k (h : heap) r h' :
  SplayTree.Node.Find fuel n k h = Ok r h' -> same_data h h'.
Proof.
  unfold SplayTree.Node.Find. destruct n as [a|]; [|by intros [= <- <-]].
  intros (nk & h1 & Hk & Hrest)%bind_inv. apply key_inv in Hk as ->.
  destruct (negb (k =? nk)); [|by injection Hrest as <- <-].
  apply bind_inv in Hrest as (nj & h1 & Hj & Hrest). apply get_c_inv in Hj as ->.
  apply bind_inv in Hrest as ([c n'] & h1 & Hrec & Hrest).
  apply same_data_Find_sub in Hrec. destruct c as [c|].
  - apply bind_inv in Hrest as (u & h2 & Hput & [= <- <-]).
    apply same_data_put_c in Hput. eauto using same_data_trans.
  - by injection Hrest as <- <-.
Qed.

(** More fuel does not change a run that ends. *)
Lemma Find_sub_mono fuel : forall fuel' n p k i (h : heap) r h',
  (fuel <= fuel')%nat ->
  SplayTree.Node.Find_sub fuel n p k i h = Ok r h' ->
  SplayTree.Node.Find_sub fuel' n p k i h = Ok r h'.
Proof.
  induction fuel as [|fuel IH]; intros fuel' n p k i h r h' Hle; [done|].
  destruct fuel' as [|fuel']; [lia|].
  cbn [SplayTree.Node.Find_sub]. destruct n as [a|]; [|done].
  intros (nk & h1 & Hk & Hrest)%bind_inv. erewrite bind_ok by exact Hk.
  destruct (negb (k =? nk)); [|done].
  apply bind_inv in Hrest as (nj & h2 & Hj & Hrest). erewrite bind_ok by exact Hj.
  apply bind_inv in Hrest as ([c n'] & h3 & Hrec & Hrest).
  erewrite bind_ok by (eapply IH; [lia|exact Hrec]). done.
Qed.

Lemma Find_mono fuel fuel' n k (h : heap) r h' :
  (fuel <= fuel')%nat ->
  SplayTree.Node.Find fuel n k h = Ok r h' -> SplayTree.Node.Find fuel' n k h = Ok r h'.
Proof.
  intros Hle. unfold SplayTree.Node.Find. destruct n as [a|]; [|done].
  intros (nk & h1 & Hk & Hrest)%bind_inv. erewrite bind_ok by exact Hk.
  destruct (negb (k =? nk)); [|done].
  apply bind_inv in Hrest as (nj & h2 & Hj & Hrest). erewrite bind_ok by exact Hj.
  apply bind_inv in Hrest as ([c n'] & h3 & Hrec & Hrest).
  erewrite bind_ok by (eapply Find_sub_mono; [exact Hle|exact Hrec]). done.
Qed.

(** ** The two copies of the node class *)

Lemma ascend_agree n p i (h : heap) :
  agree (SplayTree.Node.ascend n p i h) (Node.ascend n p i true h).
Proof.
  unfold SplayTree.Node.ascend, Node.ascend, bind.
  destruct (get_c n (negb i) h) as [q h1| |]; [|done..].
  destruct (put_c p i q h1) as [u h2| |] eqn:Hput; [|done..].
  apply put_c_inv in Hput as (a & nd & -> & _). done.
Qed.

Lemma bind_same {A B C} (R : result B -> result C -> Prop)
    (m : M A) (f : A -> M B) (g : A -> M C) h :
  R Fault Fault -> R OutOfFuel OutOfFuel ->
  (forall a h1, R (f a h1) (g a h1)) -> R (bind m f h) (bind m g h).
Proof. unfold bind. destruct (m h); auto. Qed.

Lemma bind_agree {B C} (R : result B -> result C -> Prop)
    (m1 : M (ptr * ptr)) (m2 : M (ptr * ptr * bool))
    (f : ptr * ptr -> M B) (g : ptr * ptr * bool -> M C) h :
  agree (m1 h) (m2 h) ->
  R Fault Fault -> R OutOfFuel OutOfFuel ->
  (forall c p h1, R (f (Some c, p) h1) (g (Some c, p, true) h1)) ->
  (forall n p h1, R (f (None, p) h1) (g (n, p, false) h1)) ->
  R (bind m1 f h) (bind m2 g h).
Proof.
  unfold bind. destruct (m1 h) as [[[c|] p] h1| |]; simpl.
  - intros ->. auto.
  - intros [n ->]. auto.
  - intros ->. auto.
  - intros ->. auto.
Qed.

Lemma Find_sub_agree fuel : forall n p k i (h : heap),
  agree (SplayTree.Node.Find_sub fuel n p k i h) (Node.Find_sub fuel n p k i false h).
Proof.
  induction fuel as [|fuel IH]; intros n p k i h; [done|].
  cbn [SplayTree.Node.Find_sub Node.Find_sub].
  destruct n as [a|]; [|by exists None].
  apply bind_same; [done..|]. intros nk h1.
  destruct (negb (k =? nk)); [|apply ascend_agree].
  apply bind_same; [done..|]. intros nj h2.
  apply bind_agree; [apply IH|done..| |].
  - intros c n' h3. cbn [negb].
    apply bind_same; [done..|]. intros _ h4. apply ascend_agree.
  - intros x n' h3. cbn [negb]. by exists n'.
Qed.

Lemma Find_agree fuel n k (h : heap) :
  SplayTree.Node.Find fuel n k h = Node.Find fuel n k h.
Proof.
  unfold Node.Find, SplayTree.Node.Find. destruct n as [a|]; [|done].
  apply (bind_same eq); [done..|]. intros nk h1.
  destruct (negb (k =? nk)); [|done].
  apply (bind_same eq); [done..|]. intros ni h2.
  apply (bind_agree eq); [apply Find_sub_agree|done..].
Qed.

(** C9. The nested class [SplayTree::Node] and the stand-alone class
    [ys::Node] behave alike: on every heap, root pointer and key, [Find]
    returns the same pointer (null exactly on a miss), leaves the same root
    and the same heap; [Add] and [DeleteRoot] coincide as well.  This holds
    for faulting and fuel-exhausted runs too.  The helpers differ only in
    how they report a miss: a null result in the nested class, the flag
    left [false] in the stand-alone class. *)
Theorem variants_agree (fuel : nat) (n p : ptr) (k v : Z) (i : bool) (h : heap) :
  SplayTree.Node.Find fuel n k h = Node.Find fuel n k h /\
  SplayTree.Node.Add fuel n k v h = Node.Add fuel n k v h /\
  SplayTree.Node.DeleteRoot fuel n h = Node.DeleteRoot fuel n h /\
  agree (SplayTree.Node.Find_sub fuel n p k i h) (Node.Find_sub fuel n p k i false h).
Proof.
  split; [apply Find_agree|]. split; [reflexivity|].
  split; [reflexivity|apply Find_sub_agree].
Qed.

(** C1. The emptiness tests of [root_key], [min_key] and [max_key] are
    inverted: on a non-empty tree each returns [INVALID_K] and leaves the
    heap alone; on an empty tree each dereferences the null root. *)
Theorem accessors_inverted (INVALID_K : Z) (fuel : nat) (s : SplayTree.t) (h : heap) :
  let expected := match SplayTree.tree_ s with
                  | Some _ => Ok INVALID_K h
                  | None => Fault
                  end in
  SplayTree.root_key INVALID_K s h = expected /\
  SplayTree.min_key INVALID_K (S fuel) s h = expected /\
  SplayTree.max_key INVALID_K (S fuel) s h = expected.
Proof. destruct s as [[a|] n]; by split_and!. Qed.

(** ** Search: misses, hits, and what a hit cannot change *)

(** [find] on a handle, by the outcome of the search on the tree. *)
Lemma find_run (INVALID_V : Z) (fuel : nat) (h : heap) (s : SplayTree.t) t k :
  tree_at h (SplayTree.tree_ s) t -> (height t <= fuel)%nat ->
  match splay t k with
  | None =>
      SplayTree.Node.Find fuel (SplayTree.tree_ s) k h = Ok (None, SplayTree.tree_ s) h /\
      SplayTree.find INVALID_V fuel s k h = Ok (INVALID_V, s) h
  | Some t' =>
      exists l b v r h',
        t' = T l b k v r /\
        SplayTree.Node.Find fuel (SplayTree.tree_ s) k h = Ok (Some b, Some b) h' /\
        tree_at h' (Some b) t' /\
        (forall c, c ∉ addrs t -> h' !! c = h !! c) /\
        SplayTree.find INVALID_V fuel s k h =
          Ok (v, SplayTree.mk (Some b) (SplayTree.length_ s)) h'
  end.
Proof.
  intros (Hroot & Hrep & Hnd) Hfuel.
  pose proof (Find_spec t fuel h k Hrep Hnd Hfuel) as Hf. rewrite Hroot in Hf.
  destruct (splay t k) as [t'|] eqn:Hs.
  - destruct Hf as (h' & Hrun & Hrep' & Hframe).
    destruct (splay_root _ _ _ Hs) as (l & b & v & r & ->).
    exists l, b, v, r, h'. pose proof Hrep' as (Hb & _ & _).
    split_and!; try done.
    + split_and!; [done|done|]. by eapply splay_NoDup.
    + unfold SplayTree.find. erewrite bind_ok by exact Hrun.
      cbn [root]. erewrite bind_val by done. done.
  - split; [done|].
    unfold SplayTree.find. erewrite bind_ok by exact Hf. by destruct s.
Qed.

(** C3. A search for a key that is not in the tree returns null and
    changes nothing: the heap (every child link, key and value) and the
    root pointer are as before, and the handle's [find] returns the
    sentinel with the handle unchanged. *)
Theorem find_miss_unchanged (INVALID_V : Z) (fuel : nat) (h : heap)
    (s : SplayTree.t) (t : tree) (k : Z) :
  tree_at h (SplayTree.tree_ s) t -> k ∉ keys t -> (height t <= fuel)%nat ->
  SplayTree.Node.Find fuel (SplayTree.tree_ s) k h = Ok (None, SplayTree.tree_ s) h /\
  Node.Find fuel (SplayTree.tree_ s) k h = Ok (None, SplayTree.tree_ s) h /\
  SplayTree.find INVALID_V fuel s k h = Ok (INVALID_V, s) h.
Proof.
  intros Hat Hk Hfuel.
  pose proof (find_run INVALID_V fuel h s t k Hat Hfuel) as Hf.
  rewrite (splay_absent t k Hk) in Hf. destruct Hf as [Hf1 Hf2].
  split_and!; [done| |done]. by rewrite <- Find_agree.
Qed.

Lemma rotn_left n l l' a x v r :
  rotn n l l' -> rotn n (T l a x v r) (T l' a x v r).
Proof. induction 1; econstructor; eauto using rot1. Qed.

Lemma rotn_right n l a x v r r' :
  rotn n r r' -> rotn n (T l a x v r) (T l a x v r').
Proof. induction 1; econstructor; eauto using rot1. Qed.

(** A hit is reached from the tree by one single rotation for each level
    of the search path. *)
Lemma splay_rotn t k t' : splay t k = Some t' -> rotn (depth t k) t t'.
Proof.
  revert t'. induction t as [|l IHl a x v r IHr]; intros t'; [done|].
  rewrite splay_node. cbn [depth].
  destruct (k =? x); [intros [= <-]; constructor|].
  destruct (k >? x).
  - destruct (splay r k) as [r'|] eqn:Hs; [|done]. intros [= <-].
    econstructor; [apply rotn_right, IHr; done|].
    apply rot1_here. simpl.
    by destruct (splay_root _ _ _ Hs) as (? & ? & ? & ? & ->).
  - destruct (splay l k) as [l'|] eqn:Hs; [|done]. intros [= <-].
    econstructor; [apply rotn_left, IHl; done|].
    apply rot1_here. simpl.
    by destruct (splay_root _ _ _ Hs) as (? & ? & ? & ? & ->).
Qed.

(** C2. In a tree whose keys are in order, a search for a key of the tree
    succeeds: [Find] returns the node found, which is the new root and
    holds the key sought; the heap then holds the tree obtained by one
    single rotation per level of the search path; the handle's [find]
    returns the value of that node. *)
Theorem find_hit_moves_to_root (INVALID_V : Z) (fuel : nat) (h : heap)
    (s : SplayTree.t) (t : tree) (k : Z) :
  tree_at h (SplayTree.tree_ s) t -> Sorted Z.le (keys t) -> k ∈ keys t ->
  (height t <= fuel)%nat ->
  exists l b v r h',
    SplayTree.Node.Find fuel (SplayTree.tree_ s) k h = Ok (Some b, Some b) h' /\
    tree_at h' (Some b) (T l b k v r) /\
    key (Some b) h' = Ok k h' /\
    rotn (depth t k) t (T l b k v r) /\
    SplayTree.find INVALID_V fuel s k h =
      Ok (v, SplayTree.mk (Some b) (SplayTree.length_ s)) h'.
Proof.
  intros Hat Hsorted Hk Hfuel.
  pose proof (find_run INVALID_V fuel h s t k Hat Hfuel) as Hf.
  destruct (splay_present t k Hsorted Hk) as [t' Hs]. rewrite Hs in Hf.
  destruct Hf as (l & b & v & r & h' & -> & Hrun & Hat' & _ & Hfind).
  exists l, b, v, r, h'. pose proof Hat' as (_ & (Hb & _ & _) & _).
  split_and!; try done.
  - unfold key, bind, load. by rewrite Hb.
  - by apply splay_rotn.
Qed.

(** C10. A hit neither creates nor destroys a node and changes no key or
    value: the heap has the same addresses, every node keeps its key and
    value, and the tree held afterwards has the same nodes and the same
    entries as before; only child links and the root pointer differ. *)
Theorem find_hit_preserves_nodes (fuel : nat) (h h' : heap) (p p' : ptr)
    (c : addr) (t : tree) (k : Z) :
  tree_at h p t ->
  SplayTree.Node.Find fuel p k h = Ok (Some c, p') h' ->
  exists t',
    tree_at h' p' t' /\ p' = Some c /\
    entries t' ≡ₚ entries t /\ addrs t' ≡ₚ addrs t /\
    dom h' = dom h /\ same_data h h'.
Proof.
  intros (Hroot & Hrep & Hnd) Hrun.
  pose proof (same_data_Find _ _ _ _ _ _ Hrun) as Hsd.
  apply (Find_mono fuel (fuel `max` height t)) in Hrun; [|lia].
  pose proof (Find_spec t (fuel `max` height t) h k Hrep Hnd ltac:(lia)) as Hf.
  rewrite Hroot in Hf. destruct (splay t k) as [t'|] eqn:Hs.
  - destruct Hf as (h2 & Hrun2 & Hrep2 & _).
    rewrite Hrun in Hrun2. injection Hrun2 as Hc Hp' Hh. subst p' h2.
    exists t'. split_and!; try done.
    + split_and!; [done|done|]. by eapply splay_NoDup.
    + by rewrite (splay_entries _ _ _ Hs).
    + by rewrite (splay_addrs _ _ _ Hs).
    + by apply same_data_dom.
  - by rewrite Hrun in Hf.
Qed.

(** ** Order and entries under the three operations *)

Lemma height_le_size t : (height t <= length (addrs t))%nat.
Proof.
  induction t as [|l IHl a k v r IHr]; simpl; [done|].
  rewrite length_app. simpl. lia.
Qed.

Lemma bst_sorted t : bst t -> Sorted Z.le (keys t).
Proof.
  intros Hb. apply StronglySorted_Sorted.
  induction t as [|l IHl a x v r IHr]; simpl; [constructor|].
  destruct Hb as (Hl & Hr & Bl & Br).
  apply StronglySorted_app_2; [|by apply IHl|].
  - intros y z Hy [->|Hz]%elem_of_cons.
    + eapply Forall_forall in Hl; [|done]. simpl in Hl. lia.
    + eapply Forall_forall in Hl; [|done]. eapply Forall_forall in Hr; [|done].
      simpl in *. lia.
  - constructor; [by apply IHr|done].
Qed.

Lemma bst_splay t k t' : splay t k = Some t' -> bst t -> bst t'.
Proof.
  revert t'. induction t as [|l IHl a x v r IHr]; intros t'; [done|].
  rewrite splay_node. destruct (Z.eqb_spec k x) as [->|Hne]; [by intros [= <-]|].
  intros Hs (Hl & Hr & Bl & Br). destruct (Z.gtb_spec k x) as [Hgt|Hle].
  - destruct (splay r k) as [r'|] eqn:Hsr; [|done]. injection Hs as <-.
    pose proof (splay_keys _ _ _ Hsr) as Hk.
    specialize (IHr r' eq_refl Br).
    destruct (splay_root _ _ _ Hsr) as (rl & b & w & rr & ->).
    destruct IHr as (Hrl & Hrr & Brl & Brr). simpl in Hk. rewrite <- Hk in Hr.
    apply Forall_app in Hr as [Hr1 Hr2].
    unfold rotate. simpl. split_and!; try done.
    + apply Forall_app. split.
      * eapply Forall_impl; [exact Hl|]. simpl. lia.
      * constructor; [lia|done].
  - destruct (splay l k) as [l'|] eqn:Hsl; [|done]. injection Hs as <-.
    pose proof (splay_keys _ _ _ Hsl) as Hk.
    specialize (IHl l' eq_refl Bl).
    destruct (splay_root _ _ _ Hsl) as (ll & b & w & lr & ->).
    destruct IHl as (Hll & Hlr & Bll & Blr). simpl in Hk. rewrite <- Hk in Hl.
    apply Forall_app in Hl as [Hl1 Hl2]. inversion Hl2 as [|? ? ? Hl3]; subst.
    unfold rotate. simpl. split_and!; try done.
    + apply Forall_app. split; [done|].
      constructor; [lia|]. eapply Forall_impl; [exact Hr|]. simpl. lia.
Qed.

Lemma split_min_bst l : forall a k v r c kc vc rest,
  split_min l a k v r = (c, kc, vc, rest) -> bst (T l a k v r) ->
  bst rest /\ Forall (fun y => kc <= y) (keys rest).
Proof.
  induction l as [|ll IHll b y w lr _]; intros a k v r c kc vc rest; simpl.
  - intros [= <- <- <- <-] (_ & Hr & _ & Br). done.
  - destruct (split_min ll b y w lr) as [[[c' kc'] vc'] l'] eqn:Hs.
    intros [= <- <- <- <-] (Hl & Hr & Bl & Br).
    destruct (IHll _ _ _ _ _ _ _ _ Hs Bl) as (Bl' & Hmin).
    pose proof (split_min_keys _ _ _ _ _ _ _ _ _ Hs) as Hk. simpl in Hk.
    rewrite Hk in Hl. inversion Hl as [|? ? Hkc Hl']; subst.
    simpl. split_and!; try done.
    apply Forall_app. split; [done|].
    constructor; [lia|]. eapply Forall_impl; [exact Hr|]. simpl. lia.
Qed.

Lemma bst_delete_root t : bst t -> bst (delete_root t).
Proof.
  destruct t as [|l a k v r]; [done|]. intros (Hl & Hr & Bl & Br).
  simpl. destruct r as [|rl b y w rr]; [done|].
  destruct (split_min rl b y w rr) as [[[c kc] vc] rest] eqn:Hs.
  destruct (split_min_bst _ _ _ _ _ _ _ _ _ Hs Br) as (Brest & Hmin).
  pose proof (split_min_keys _ _ _ _ _ _ _ _ _ Hs) as Hk.
  rewrite Hk in Hr. inversion Hr as [|? ? Hkc Hr']; subst.
  simpl. split_and!; try done.
  eapply Forall_impl; [exact Hl|]. simpl. lia.
Qed.

Lemma first_value_app k es1 es2 :
  first_value k (es1 ++ es2) =
    match first_value k es1 with Some v => Some v | None => first_value k es2 end.
Proof.
  induction es1 as [|[x v] es1 IH]; simpl; [done|]. by destruct (x =? k).
Qed.

Lemma first_value_None k es : k ∉ es.*1 -> first_value k es = None.
Proof.
  induction es as [|[x v] es IH]; simpl; [done|].
  intros [Hx Hes]%not_elem_of_cons. destruct (Z.eqb_spec x k); [done|auto].
Qed.

Lemma first_value_Some k es v : first_value k es = Some v -> (k, v) ∈ es.
Proof.
  induction es as [|[x w] es IH]; simpl; [done|].
  destruct (Z.eqb_spec x k) as [->|Hne].
  - intros [= ->]. left.
  - intros Hf. right. auto.
Qed.

Lemma keys_entries t : keys t = (entries t).*1.
Proof.
  induction t as [|l IHl a k v r IHr]; simpl; [done|].
  by rewrite fmap_app, fmap_cons, IHl, IHr.
Qed.


Lemma Forall_lt_not_elem k (l : list Z) : Forall (fun y => y < k) l -> k ∉ l.
Proof. intros H Hk. eapply Forall_forall in H; [|done]. simpl in H. lia. Qed.

Lemma Forall_le_not_elem k x (l : list Z) :
  k < x -> Forall (fun y => x <= y) l -> k ∉ l.
Proof. intros Hlt H Hk. eapply Forall_forall in H; [|done]. simpl in H. lia. Qed.

(** Insertion puts the new entry behind every entry with the same key. *)
Lemma first_value_ins t a k' v' k :
  bst t ->
  first_value k (entries (ins t a k' v')) =
    match first_value k (entries t) with
    | Some v => Some v
    | None => if k' =? k then Some v' else None
    end.
Proof.
  induction t as [|l IHl b x w r IHr]; simpl; [done|].
  intros (Hl & Hr & Bl & Br). destruct (Z.leb_spec x k') as [Hle|Hgt]; simpl.
  - rewrite !first_value_app. destruct (first_value k (entries l)); [done|].
    simpl. destruct (x =? k); [done|]. by apply IHr.
  - rewrite !first_value_app, (IHl Bl).
    destruct (first_value k (entries l)) as [v|]; [done|].
    destruct (Z.eqb_spec k' k) as [->|Hne].
    + rewrite first_value_None; [done|]. simpl. rewrite <- keys_entries.
      apply not_elem_of_cons. split; [lia|]. by eapply Forall_le_not_elem.
    + by destruct (first_value k ((x, w) :: entries r)).
Qed.

(** In an ordered tree, the node a search reaches holds the first entry
    with the key sought. *)
Lemma splay_first_value t k l b v r :
  bst t -> splay t k = Some (T l b k v r) ->
  first_value k (entries t) = Some v.
Proof.
  intros Hb Hs. pose proof (bst_splay _ _ _ Hs Hb) as (Hl & _).
  rewrite <- (splay_entries _ _ _ Hs). simpl.
  rewrite first_value_app, first_value_None.
  - simpl. by rewrite Z.eqb_refl.
  - rewrite <- keys_entries. by apply Forall_lt_not_elem.
Qed.

(** Dropping an entry with another key keeps the first entry of a key. *)
Lemma first_value_drop k x w es1 es2 :
  x <> k -> first_value k (es1 ++ es2) = first_value k (es1 ++ (x, w) :: es2).
Proof.
  intros Hne. rewrite !first_value_app. simpl.
  by destruct (Z.eqb_spec x k).
Qed.

(** ** Deletion in the heap, and [remove] *)

Lemma delete_root_NoDup t : NoDup (addrs t) -> NoDup (addrs (delete_root t)).
Proof.
  destruct t as [|l a k v r]; [done|]. rewrite delete_root_addrs.
  intros (Ndl & Ndr & Hal & Har & Hlr)%NoDup_node.
  apply NoDup_app. by split_and!.
Qed.

Lemma DeleteRoot_run (fuel : nat) (h : heap) t a :
  tree_at h (Some a) t -> (height t <= fuel)%nat ->
  exists h',
    SplayTree.Node.DeleteRoot fuel (Some a) h = Ok (root (delete_root t)) h' /\
    tree_at h' (root (delete_root t)) (delete_root t) /\
    h' !! a = None /\
    (forall b, b ∉ addrs t -> h' !! b = h !! b).
Proof.
  intros (Hroot & Hrep & Hnd) Hfuel.
  destruct (DeleteRoot_spec t fuel h Hrep Hnd Hfuel) as (h' & Hrun & Hrep' & Hfr & Hgone).
  rewrite Hroot in Hrun. exists h'. split_and!; try done.
  - split_and!; [done|done|]. by apply delete_root_NoDup.
  - by apply Hgone.
Qed.

(** C7. [DeleteRoot] on a non-empty tree frees exactly the root.  With no
    right child the left child is the new root; otherwise the new root is
    the leftmost node of the right subtree, above the old left subtree and
    the right subtree without that node.  Each in-order sequence loses the
    root's single place and nothing else. *)
Theorem delete_root_splices_successor (fuel : nat) (h : heap)
    (l : tree) (a : addr) (k v : Z) (r : tree) :
  let t := T l a k v r in
  tree_at h (Some a) t -> (height t <= fuel)%nat ->
  exists h',
    SplayTree.Node.DeleteRoot fuel (Some a) h = Ok (root (delete_root t)) h' /\
    tree_at h' (root (delete_root t)) (delete_root t) /\
    h' !! a = None /\
    (forall b, b ∉ addrs t -> h' !! b = h !! b) /\
    keys (delete_root t) = keys l ++ keys r /\
    entries (delete_root t) = entries l ++ entries r /\
    addrs (delete_root t) = addrs l ++ addrs r /\
    match r with
    | E => delete_root t = l
    | T _ _ _ _ _ =>
        exists c kc vc rest,
          delete_root t = T l c kc vc rest /\
          addrs r = c :: addrs rest /\
          entries r = (kc, vc) :: entries rest
    end.
Proof.
  intros t Hat Hfuel.
  destruct (DeleteRoot_run fuel h t a Hat Hfuel) as (h' & Hrun & Hat' & Hgone & Hfr).
  exists h'. split_and!; try done.
  - apply delete_root_keys.
  - apply delete_root_entries.
  - apply delete_root_addrs.
  - destruct r as [|rl b y w rr]; [done|]. unfold t. cbn [delete_root].
    destruct (split_min rl b y w rr) as [[[c kc] vc] rest] eqn:Hs.
    exists c, kc, vc, rest. split_and!; [done| |].
    + by eapply split_min_addrs.
    + by eapply split_min_entries.
Qed.

(** [remove] on a handle, by the outcome of the search on the tree. *)
Lemma remove_run (INVALID_V : Z) (fuel : nat) (h : heap) (s : SplayTree.t) t k :
  tree_at h (SplayTree.tree_ s) t -> (length (addrs t) <= fuel)%nat ->
  match splay t k with
  | None => SplayTree.remove INVALID_V fuel s k h = Ok (INVALID_V, s) h
  | Some t1 =>
      exists l b v r h',
        t1 = T l b k v r /\
        SplayTree.remove INVALID_V fuel s k h =
          Ok (v, SplayTree.mk (root (delete_root t1))
                   ((SplayTree.length_ s - 1) mod SplayTree.size_t_modulus)) h' /\
        tree_at h' (root (delete_root t1)) (delete_root t1) /\
        h' !! b = None /\
        (forall c, c ∉ addrs t -> h' !! c = h !! c)
  end.
Proof.
  intros Hat Hfuel. pose proof (height_le_size t) as Hht.
  pose proof (find_run INVALID_V fuel h s t k Hat ltac:(lia)) as Hf.
  unfold SplayTree.remove.
  destruct (splay t k) as [t1|] eqn:Hs.
  - destruct Hf as (l & b & v & r & h1 & -> & Hrun & Hat1 & Hfr1 & _).
    pose proof (splay_addrs _ _ _ Hs) as Haddrs.
    assert (Hfuel1 : (height (T l b k v r) <= fuel)%nat).
    { pose proof (height_le_size (T l b k v r)). rewrite Haddrs in *. lia. }
    destruct (DeleteRoot_run fuel h1 _ b Hat1 Hfuel1) as (h2 & Hdel & Hat2 & Hgone & Hfr2).
    exists l, b, v, r, h2. split_and!; try done.
    + erewrite bind_ok by exact Hrun.
      destruct Hat1 as (_ & (Hb & _ & _) & _).
      erewrite bind_val by exact Hb. erewrite bind_ok by exact Hdel. done.
    + intros c Hc. rewrite Hfr2, Hfr1; [done|done|by rewrite Haddrs].
  - destruct Hf as [Hf _]. erewrite bind_ok by exact Hf. by destruct s.
Qed.

(** C6. On a handle that owns an ordered tree, [remove(k)] for a key of
    the tree returns the value of a node with key [k], frees exactly that
    node and lowers [size()] by one; for a key that is not in the tree it
    returns [INVALID_V] and leaves heap, root and counter as they were. *)
Theorem remove_spec (INVALID_V : Z) (fuel : nat) (h : heap)
    (s : SplayTree.t) (t : tree) (k : Z) :
  handle_at h s t -> Sorted Z.le (keys t) -> (length (addrs t) <= fuel)%nat ->
  (k ∈ keys t /\
   exists a v t' s' h',
     SplayTree.remove INVALID_V fuel s k h = Ok (v, s') h' /\
     handle_at h' s' t' /\
     addrs t ≡ₚ a :: addrs t' /\
     entries t ≡ₚ (k, v) :: entries t' /\
     h' !! a = None /\
     (forall b, b ∉ addrs t -> h' !! b = h !! b) /\
     SplayTree.size s' = SplayTree.size s - 1) \/
  (k ∉ keys t /\
   SplayTree.remove INVALID_V fuel s k h = Ok (INVALID_V, s) h).
Proof.
  intros (Hat & Hlen & Hmax) Hsorted Hfuel.
  pose proof (remove_run INVALID_V fuel h s t k Hat Hfuel) as Hr.
  destruct (decide (k ∈ keys t)) as [Hk|Hk].
  - left. split; [done|].
    destruct (splay_present t k Hsorted Hk) as [t1 Hs]. rewrite Hs in Hr.
    destruct Hr as (l & b & v & r & h' & -> & Hrun & Hat' & Hgone & Hfr).
    pose proof (splay_addrs _ _ _ Hs) as Haddrs.
    pose proof (splay_entries _ _ _ Hs) as Hentries.
    assert (Hperm : addrs t ≡ₚ b :: addrs (delete_root (T l b k v r))).
    { rewrite delete_root_addrs, <- Haddrs. simpl. by rewrite Permutation_middle. }
    assert (Hcount : length (addrs t) = S (length (addrs (delete_root (T l b k v r))))).
    { by rewrite Hperm. }
    assert (Hdec : (SplayTree.length_ s - 1) mod SplayTree.size_t_modulus
                   = SplayTree.length_ s - 1).
    { unfold SplayTree.size_t_modulus in *. apply Z.mod_small. lia. }
    eexists b, v, (delete_root (T l b k v r)), _, h'.
    split_and!; [done| | | | | |].
    + split_and!; cbn [SplayTree.length_ SplayTree.tree_]; [done|lia|lia].
    + done.
    + rewrite delete_root_entries, <- Hentries. simpl. by rewrite Permutation_middle.
    + done.
    + done.
    + done.
  - right. split; [done|]. by rewrite (splay_absent t k Hk) in Hr.
Qed.

(** ** Sequences of insertions *)

Lemma ins_NoDup (h : heap) t k v :
  repr h t -> NoDup (addrs t) -> NoDup (addrs (ins t (fresh (dom h)) k v)).
Proof.
  intros Hrep Hnd. rewrite addrs_ins. apply NoDup_cons. split; [|done].
  eapply repr_not_dom; [done|]. apply is_fresh.
Qed.

(** Repeated [Add] from a heap that holds an ordered tree: it ends, and
    the heap then holds an ordered tree with the old and the new entries. *)
Lemma Add_all_spec kvs : forall fuel (h : heap) t,
  repr h t -> NoDup (addrs t) -> bst t ->
  (length (addrs t) + length kvs <= fuel)%nat ->
  exists h' t',
    Add_all fuel (root t) kvs h = Ok (root t') h' /\
    repr h' t' /\ NoDup (addrs t') /\ bst t' /\
    entries t' ≡ₚ entries t ++ kvs /\
    length (addrs t') = (length (addrs t) + length kvs)%nat.
Proof.
  induction kvs as [|[k v] kvs IH]; intros fuel h t Hrep Hnd Hbst Hfuel.
  - exists h, t. rewrite app_nil_r. split_and!; try done; simpl; lia.
  - simpl in Hfuel. pose proof (height_le_size t) as Hht.
    destruct (Add_spec t fuel h k v Hrep Hnd ltac:(lia)) as (h1 & Hrun & Hrep1 & _ & _).
    pose proof (ins_NoDup h t k v Hrep Hnd) as Hnd1.
    pose proof (bst_ins t (fresh (dom h)) k v Hbst) as Hbst1.
    assert (Hlen1 : length (addrs (ins t (fresh (dom h)) k v)) = S (length (addrs t))).
    { by rewrite addrs_ins. }
    destruct (IH fuel h1 _ Hrep1 Hnd1 Hbst1 ltac:(lia))
      as (h2 & t2 & Hrun2 & Hrep2 & Hnd2 & Hbst2 & Hent2 & Hlen2).
    exists h2, t2. cbn [Add_all]. erewrite bind_ok by exact Hrun.
    split_and!; try done.
    + rewrite Hent2, entries_ins. by rewrite <- Permutation_middle.
    + simpl. lia.
Qed.

(** The handle's [add] is [Add] on its root. *)
Lemma add_all_Add_all fuel kvs : forall (s : SplayTree.t) (h : heap),
  match Add_all fuel (SplayTree.tree_ s) kvs h, add_all fuel s kvs h with
  | Ok p h1, Ok s' h2 => SplayTree.tree_ s' = p /\ h2 = h1
  | Fault, Fault => True
  | OutOfFuel, OutOfFuel => True
  | _, _ => False
  end.
Proof.
  induction kvs as [|[k v] kvs IH]; intros s h; [done|].
  cbn [Add_all add_all]. unfold SplayTree.add, bind, ret.
  destruct (SplayTree.Node.Add fuel (SplayTree.tree_ s) k v h) as [r h1| |]; [|done..].
  apply (IH (SplayTree.mk r _) h1).
Qed.

Lemma inorder_keys_repr t : forall fuel (h : heap),
  repr h t -> (height t < fuel)%nat ->
  inorder_keys fuel h (root t) = Some (keys t).
Proof.
  induction t as [|l IHl a k v r IHr]; intros fuel h Hrep Hfuel;
    (destruct fuel as [|fuel]; [lia|]); [done|].
  destruct Hrep as (Ha & Hl & Hr). simpl in Hfuel. simpl.
  rewrite Ha. cbn [c0 c1 k_].
  by rewrite (IHl fuel h Hl ltac:(lia)), (IHr fuel h Hr ltac:(lia)).
Qed.

(** C5. Any sequence of [add] calls on an empty handle ends, and an
    in-order traversal of what it built yields the inserted keys in
    non-decreasing order. *)
Theorem add_all_inorder_sorted (fuel : nat) (kvs : list (Z * Z)) (h : heap) :
  (length kvs <= fuel)%nat ->
  exists s' h' ks,
    add_all fuel SplayTree.init kvs h = Ok s' h' /\
    inorder_keys (S fuel) h' (SplayTree.tree_ s') = Some ks /\
    ks ≡ₚ kvs.*1 /\
    Sorted Z.le ks.
Proof.
  intros Hfuel.
  destruct (Add_all_spec kvs fuel h E I (NoDup_nil_2) I Hfuel)
    as (h' & t' & Hrun & Hrep & Hnd & Hbst & Hent & Hlen).
  pose proof (add_all_Add_all fuel kvs SplayTree.init h) as Hh.
  cbn [SplayTree.init SplayTree.tree_ root] in *. rewrite Hrun in Hh.
  destruct (add_all fuel SplayTree.init kvs h) as [s' h2| |]; [|done..].
  destruct Hh as [Hs ->]. exists s', h', (keys t'). split_and!.
  - done.
  - rewrite Hs. apply inorder_keys_repr; [done|].
    pose proof (height_le_size t'). simpl in Hlen. lia.
  - by rewrite keys_entries, Hent.
  - by apply bst_sorted.
Qed.

(** C4 (amended). Every tree built by a sequence of [Add] calls is ordered
    as the rule [i = (n->k_ <= k)] orders it: at every node the keys of the
    left subtree are smaller than the node's key and the keys of the right
    subtree are equal to it or larger.  A further [Add] of a key that the
    root holds goes into the right subtree and leaves the left one alone. *)
Theorem Add_all_bst (fuel : nat) (kvs : list (Z * Z)) (h : heap) :
  (length kvs < fuel)%nat ->
  exists p h' t,
    Add_all fuel None kvs h = Ok p h' /\
    tree_at h' p t /\
    entries t ≡ₚ kvs /\
    bst t /\
    forall l a x w r v,
      t = T l a x w r ->
      exists h'',
        SplayTree.Node.Add fuel p x v h' = Ok p h'' /\
        tree_at h'' p (T l a x w (ins r (fresh (dom h')) x v)).
Proof.
  intros Hfuel.
  destruct (Add_all_spec kvs fuel h E I (NoDup_nil_2) I ltac:(simpl; lia))
    as (h' & t & Hrun & Hrep & Hnd & Hbst & Hent & Hlen).
  exists (root t), h', t. split_and!; try done.
  intros l a x w r v ->. pose proof (height_le_size (T l a x w r)) as Hht.
  rewrite Hlen in Hht. change (length (addrs E)) with O in Hht.
  destruct (Add_spec (T l a x w r) fuel h' x v Hrep Hnd ltac:(lia))
    as (h'' & Hadd & Hrep'' & _).
  pose proof (ins_NoDup h' _ x v Hrep Hnd) as Hnd''.
  cbn [ins] in *. rewrite Z.leb_refl in *.
  exists h''. by split_and!.
Qed.

(** ** Interleaved calls on a handle *)

Lemma bst_tree_step a o t : bst t -> bst (tree_step a o t).
Proof.
  intros Hb. destruct o as [k v|k|k]; simpl.
  - by apply bst_ins.
  - destruct (splay t k) eqn:Hs; [by eapply bst_splay|done].
  - destruct (splay t k) eqn:Hs; [|done].
    apply bst_delete_root. by eapply bst_splay.
Qed.

Lemma size_tree_step a o t :
  (length (addrs (tree_step a o t)) <= S (length (addrs t)))%nat.
Proof.
  destruct o as [k v|k|k]; simpl.
  - by rewrite addrs_ins.
  - destruct (splay t k) eqn:Hs; simpl; [|lia].
    rewrite (splay_addrs _ _ _ Hs). lia.
  - destruct (splay t k) as [t1|] eqn:Hs; [|lia].
    destruct (splay_root _ _ _ Hs) as (l & b & v & r & ->).
    rewrite delete_root_addrs, <- (splay_addrs _ _ _ Hs). simpl.
    rewrite !length_app. simpl. lia.
Qed.

(** One call on a handle that owns a tree ends and leaves the handle
    owning the tree that [tree_step] describes; the counter moves with the
    number of nodes, modulo the width of [size_t]. *)
Lemma step_spec (INVALID_V : Z) (fuel : nat) (h : heap) (s : SplayTree.t) t o :
  tree_at h (SplayTree.tree_ s) t -> (length (addrs t) < fuel)%nat ->
  exists s' h',
    step INVALID_V fuel s o h = Ok s' h' /\
    tree_at h' (SplayTree.tree_ s') (tree_step (fresh (dom h)) o t) /\
    SplayTree.length_ s' =
      match o with
      | OpAdd _ _ => (SplayTree.length_ s + 1) mod SplayTree.size_t_modulus
      | OpFind _ => SplayTree.length_ s
      | OpRemove k =>
          match splay t k with
          | Some _ => (SplayTree.length_ s - 1) mod SplayTree.size_t_modulus
          | None => SplayTree.length_ s
          end
      end.
Proof.
  intros Hat Hfuel. pose proof (height_le_size t) as Hht.
  destruct o as [k v|k|k]; cbn [step tree_step].
  - destruct Hat as (Hroot & Hrep & Hnd).
    destruct (Add_spec t fuel h k v Hrep Hnd ltac:(lia)) as (h1 & Hrun & Hrep1 & _).
    rewrite Hroot in Hrun. unfold SplayTree.add.
    erewrite bind_ok by exact Hrun. eexists _, h1. split; [done|].
    split; [|done]. split_and!; [done|done|]. by apply ins_NoDup.
  - pose proof (find_run INVALID_V fuel h s t k Hat ltac:(lia)) as Hf.
    destruct (splay t k) as [t1|] eqn:Hs.
    + destruct Hf as (l & b & v & r & h1 & -> & _ & Hat1 & _ & Hfind).
      erewrite bind_ok by exact Hfind. by eexists _, h1.
    + destruct Hf as [_ Hfind]. erewrite bind_ok by exact Hfind. by eexists _, h.
  - pose proof (remove_run INVALID_V fuel h s t k Hat ltac:(lia)) as Hr.
    destruct (splay t k) as [t1|] eqn:Hs.
    + destruct Hr as (l & b & v & r & h1 & -> & Hrun & Hat1 & _).
      erewrite bind_ok by exact Hrun. by eexists _, h1.
    + erewrite bind_ok by exact Hr. by eexists _, h.
Qed.

(** A sequence of calls on a handle that owns an ordered tree ends and
    leaves the handle owning an ordered tree; a property of trees that
    every call of the sequence keeps holds at the end. *)
Lemma run_spec (INVALID_V : Z) (P : tree -> Prop) ops :
  forall (fuel : nat) (h : heap) (s : SplayTree.t) t,
  tree_at h (SplayTree.tree_ s) t -> bst t ->
  (length (addrs t) + length ops <= fuel)%nat ->
  P t ->
  (forall a o t, o ∈ ops -> bst t -> P t -> P (tree_step a o t)) ->
  exists s' h' t',
    run INVALID_V fuel s ops h = Ok s' h' /\
    tree_at h' (SplayTree.tree_ s') t' /\ bst t' /\ P t' /\
    (length (addrs t') <= length (addrs t) + length ops)%nat.
Proof.
  induction ops as [|o ops IH]; intros fuel h s t Hat Hbst Hfuel HP Hkeep.
  - exists s, h, t. split_and!; try done. lia.
  - simpl in Hfuel.
    destruct (step_spec INVALID_V fuel h s t o Hat ltac:(lia)) as (s1 & h1 & Hstep & Hat1 & _).
    pose proof (size_tree_step (fresh (dom h)) o t) as Hsize.
    destruct (IH fuel h1 s1 _ Hat1 (bst_tree_step _ o t Hbst) ltac:(lia))
      as (s2 & h2 & t2 & Hrun & Hat2 & Hbst2 & HP2 & Hsize2).
    + apply Hkeep; [left|done|done].
    + intros a o' t' Ho'. apply Hkeep. by right.
    + exists s2, h2, t2. cbn [run]. erewrite bind_ok by exact Hstep.
      split_and!; try done. simpl. lia.
Qed.

(** The number of nodes after a call. *)
Lemma count_tree_step a o t :
  Z.of_nat (length (addrs (tree_step a o t))) =
    match o with
    | OpAdd _ _ => Z.of_nat (length (addrs t)) + 1
    | OpFind _ => Z.of_nat (length (addrs t))
    | OpRemove k =>
        match splay t k with
        | Some _ => Z.of_nat (length (addrs t)) - 1
        | None => Z.of_nat (length (addrs t))
        end
    end.
Proof.
  destruct o as [k v|k|k]; simpl.
  - rewrite addrs_ins. simpl. lia.
  - destruct (splay t k) eqn:Hs; simpl; [|done].
    by rewrite (splay_addrs _ _ _ Hs).
  - destruct (splay t k) as [t1|] eqn:Hs; [|done].
    destruct (splay_root _ _ _ Hs) as (l & b & v & r & ->).
    rewrite delete_root_addrs, <- (splay_addrs _ _ _ Hs). simpl.
    rewrite !length_app. simpl. lia.
Qed.

(** The handle's invariant: calls keep the tree ordered and the counter
    equal to the number of nodes, as long as that number fits [size_t]. *)
Lemma run_handle_at (INVALID_V : Z) ops :
  forall (fuel : nat) (h : heap) (s : SplayTree.t) t,
  handle_at h s t -> bst t ->
  (length (addrs t) + length ops <= fuel)%nat ->
  Z.of_nat (length (addrs t) + length ops) < SplayTree.size_t_modulus ->
  exists s' h' t',
    run INVALID_V fuel s ops h = Ok s' h' /\
    handle_at h' s' t' /\ bst t'.
Proof.
  induction ops as [|o ops IH]; intros fuel h s t Hh Hbst Hfuel Hmax.
  - by exists s, h, t.
  - simpl in Hfuel, Hmax. destruct Hh as (Hat & Hlen & _).
    destruct (step_spec INVALID_V fuel h s t o Hat ltac:(lia))
      as (s1 & h1 & Hstep & Hat1 & Hlen1).
    pose proof (count_tree_step (fresh (dom h)) o t) as Hcount.
    pose proof (size_tree_step (fresh (dom h)) o t) as Hsize.
    assert (Hh1 : handle_at h1 s1 (tree_step (fresh (dom h)) o t)).
    { unfold handle_at, SplayTree.size_t_modulus in *.
      split; [done|]. rewrite Hlen1, Hcount, Hlen.
      destruct o as [k v|k|k].
      - rewrite Z.mod_small by lia. lia.
      - lia.
      - destruct (splay t k) as [t1|] eqn:Hs; [|lia].
        destruct (splay_root _ _ _ Hs) as (l & b & v & r & ->).
        apply splay_addrs in Hs. rewrite <- Hs in *. simpl in *.
        rewrite length_app in *. simpl in *.
        rewrite Z.mod_small by lia. lia. }
    destruct (IH fuel h1 s1 _ Hh1 (bst_tree_step _ o t Hbst) ltac:(lia) ltac:(lia))
      as (s2 & h2 & t2 & Hrun & Hh2 & Hbst2).
    exists s2, h2, t2. cbn [run]. erewrite bind_ok by exact Hstep. done.
Qed.

(** Every handle reached from the constructor by calls owns an ordered
    tree and counts its nodes. *)
Lemma run_init_handle_at (INVALID_V : Z) (fuel : nat) (h : heap) ops :
  (length ops <= fuel)%nat -> Z.of_nat (length ops) < SplayTree.size_t_modulus ->
  exists s' h' t',
    run INVALID_V fuel SplayTree.init ops h = Ok s' h' /\
    handle_at h' s' t' /\ bst t' /\ Sorted Z.le (keys t').
Proof.
  intros Hfuel Hmax.
  destruct (run_handle_at INVALID_V ops fuel h SplayTree.init E)
    as (s' & h' & t' & Hrun & Hh & Hbst); [|done|done|done|].
  - split; [|done]. split; [done|]. split; [done|apply NoDup_nil_2].
  - exists s', h', t'. split_and!; try done. by apply bst_sorted.
Qed.

Lemma run_app (INVALID_V : Z) (fuel : nat) ops1 ops2 (s : SplayTree.t) (h : heap) :
  run INVALID_V fuel s (ops1 ++ ops2) h =
    bind (run INVALID_V fuel s ops1) (fun s' => run INVALID_V fuel s' ops2) h.
Proof.
  revert s h. induction ops1 as [|o ops1 IH]; intros s h; [done|].
  cbn [run app]. rewrite bind_bind. unfold bind at 1 2.
  destruct (step INVALID_V fuel s o h); [apply IH|done..].
Qed.

(** Calls other than [remove(k)] keep the first entry with key [k]. *)
Lemma first_value_tree_step a o t k v :
  o <> OpRemove k -> bst t ->
  first_value k (entries t) = Some v ->
  first_value k (entries (tree_step a o t)) = Some v.
Proof.
  intros Ho Hbst Hfv. destruct o as [k' v'|k'|k']; simpl.
  - rewrite first_value_ins by done. by rewrite Hfv.
  - destruct (splay t k') eqn:Hs; [|done]. simpl.
    by rewrite (splay_entries _ _ _ Hs).
  - destruct (splay t k') as [t1|] eqn:Hs; [|done].
    destruct (splay_root _ _ _ Hs) as (l & b & w & r & ->).
    rewrite delete_root_entries.
    rewrite (first_value_drop k k' w); [|congruence].
    by rewrite <- (splay_entries _ _ _ Hs) in Hfv.
Qed.

(** C8 (amended). A key [k] inserted with value [v] by [add(k, v)] at a
    moment when no node holds [k], and not removed afterwards, is found
    with value [v]: whatever calls came before, and whatever calls other
    than [remove(k)] follow (further [add(k, ...)] included), a later
    [find(k)] returns [v]. *)
Theorem find_after_add (INVALID_V : Z) (fuel : nat) (h : heap)
    (pre post : list op) (k v : Z)
    (s0 : SplayTree.t) (h0 : heap) (ks : list Z) :
  (length (pre ++ OpAdd k v :: post) <= fuel)%nat ->
  run INVALID_V fuel SplayTree.init pre h = Ok s0 h0 ->
  inorder_keys (S fuel) h0 (SplayTree.tree_ s0) = Some ks ->
  k ∉ ks ->
  no_remove k post ->
  exists s1 h1 s2 h2,
    run INVALID_V fuel SplayTree.init (pre ++ OpAdd k v :: post) h = Ok s1 h1 /\
    SplayTree.find INVALID_V fuel s1 k h1 = Ok (v, s2) h2.
Proof.
  intros Hfuel Hpre Hks Hk Hpost.
  rewrite length_app in Hfuel. cbn [length] in Hfuel.
  (* the calls before the insertion *)
  destruct (run_spec INVALID_V (fun _ => True) pre fuel h SplayTree.init E)
    as (s0' & h0' & t0 & Hrun0 & Hat0 & Hbst0 & _ & Hsize0);
    [by split_and!; [..|apply NoDup_nil_2]|done|simpl; lia|done|done|].
  rewrite Hpre in Hrun0. injection Hrun0 as <- <-.
  pose proof (height_le_size t0) as Hht0. simpl in Hsize0.
  pose proof Hat0 as (Hroot0 & Hrep0 & _).
  rewrite <- Hroot0, (inorder_keys_repr t0 (S fuel) h0 Hrep0 ltac:(lia)) in Hks.
  injection Hks as <-.
  (* the insertion *)
  destruct (step_spec INVALID_V fuel h0 s0 t0 (OpAdd k v) Hat0 ltac:(lia))
    as (sa & ha & Hadd & Hata & _).
  cbn [tree_step] in Hata. set (t1 := ins t0 (fresh (dom h0)) k v) in *.
  assert (Hbst1 : bst t1) by (by apply bst_ins).
  assert (Hsize1 : length (addrs t1) = S (length (addrs t0))).
  { unfold t1. by rewrite addrs_ins. }
  assert (Hfv1 : first_value k (entries t1) = Some v).
  { unfold t1. rewrite first_value_ins by done.
    rewrite first_value_None by (by rewrite <- keys_entries).
    by rewrite Z.eqb_refl. }
  (* the calls after it *)
  destruct (run_spec INVALID_V (fun t => first_value k (entries t) = Some v)
              post fuel ha sa t1 Hata Hbst1 ltac:(lia) Hfv1)
    as (s1 & h1 & t2 & Hrun1 & Hat1 & Hbst2 & Hfv2 & Hsize2).
  { intros a o t Ho Hb Hfv. apply first_value_tree_step; [|done..].
    unfold no_remove in Hpost. by eapply Forall_forall in Hpost. }
  (* the search *)
  pose proof (height_le_size t2) as Hht2.
  pose proof (find_run INVALID_V fuel h1 s1 t2 k Hat1 ltac:(lia)) as Hf.
  assert (Hin : k ∈ keys t2).
  { apply first_value_Some in Hfv2. rewrite keys_entries.
    by apply (list_elem_of_fmap_2 fst) in Hfv2. }
  destruct (splay_present t2 k (bst_sorted _ Hbst2) Hin) as [t3 Hs].
  rewrite Hs in Hf. destruct Hf as (l & b & w & r & h2 & -> & _ & _ & _ & Hfind).
  rewrite (splay_first_value _ _ _ _ _ _ Hbst2 Hs) in Hfv2. injection Hfv2 as ->.
  eexists s1, h1, _, h2. split; [|exact Hfind].
  rewrite run_app. erewrite bind_ok by exact Hpre.
  cbn [run]. erewrite bind_ok by exact Hadd. done.
Qed.

(** ** The properties at work on sample data *)

Lemma sample_tree_at : tree_at sample_heap (Some 1%positive) sample_tree.
Proof.
  split; [reflexivity|]. split.
  - simpl. repeat split; reflexivity.
  - compute_done.
Defined.

Lemma sample_sorted : Sorted Z.le (keys sample_tree).
Proof. simpl. repeat constructor; lia. Defined.

Lemma sample_handle_at : handle_at sample_heap sample_handle sample_tree.
Proof. split; [exact sample_tree_at|]. split; reflexivity. Defined.

Lemma find_miss_unchanged_witness :
  SplayTree.Node.Find 3 (Some 1%positive) 6 sample_heap = Ok (None, Some 1%positive) sample_heap /\
  Node.Find 3 (Some 1%positive) 6 sample_heap = Ok (None, Some 1%positive) sample_heap /\
  SplayTree.find demo_INVALID 3 sample_handle 6 sample_heap
    = Ok (demo_INVALID, sample_handle) sample_heap.
Proof.
  apply (find_miss_unchanged demo_INVALID 3 sample_heap sample_handle sample_tree 6).
  - exact sample_tree_at.
  - compute_done.
  - simpl. lia.
Defined.

Lemma find_hit_moves_to_root_witness :
  exists l b v r h',
    SplayTree.Node.Find 3 (Some 1%positive) 7 sample_heap = Ok (Some b, Some b) h' /\
    tree_at h' (Some b) (T l b 7 v r) /\
    key (Some b) h' = Ok 7 h' /\
    rotn (depth sample_tree 7) sample_tree (T l b 7 v r) /\
    SplayTree.find demo_INVALID 3 sample_handle 7 sample_heap =
      Ok (v, SplayTree.mk (Some b) 4) h'.
Proof.
  apply (find_hit_moves_to_root demo_INVALID 3 sample_heap sample_handle sample_tree 7).
  - exact sample_tree_at.
  - exact sample_sorted.
  - compute_done.
  - simpl. lia.
Defined.

Lemma find_hit_preserves_nodes_witness :
  exists t',
    tree_at sample_heap_found (Some 4%positive) t' /\
    Some 4%positive = Some 4%positive /\
    entries t' ≡ₚ entries sample_tree /\ addrs t' ≡ₚ addrs sample_tree /\
    dom sample_heap_found = dom sample_heap /\
    same_data sample_heap sample_heap_found.
Proof.
  apply (find_hit_preserves_nodes 3 sample_heap sample_heap_found
           (Some 1%positive) (Some 4%positive) 4%positive sample_tree 7).
  - exact sample_tree_at.
  - vm_compute. reflexivity.
Defined.

Lemma delete_root_splices_successor_witness :
  let t := sample_tree in
  exists h',
    SplayTree.Node.DeleteRoot 3 (Some 1%positive) sample_heap = Ok (root (delete_root t)) h' /\
    tree_at h' (root (delete_root t)) (delete_root t) /\
    h' !! 1%positive = None /\
    (forall b, b ∉ addrs t -> h' !! b = sample_heap !! b) /\
    keys (delete_root t) = [3] ++ [7; 9] /\
    entries (delete_root t) = [(3, 30)] ++ [(7, 70); (9, 90)] /\
    addrs (delete_root t) = [2%positive] ++ [4%positive; 3%positive] /\
    exists c kc vc rest,
      delete_root t = T (T E 2 3 30 E) c kc vc rest /\
      [4%positive; 3%positive] = c :: addrs rest /\
      [(7, 70); (9, 90)] = (kc, vc) :: entries rest.
Proof.
  apply (delete_root_splices_successor 3 sample_heap
           (T E 2 3 30 E) 1%positive 5 50 (T (T E 4 7 70 E) 3 9 90 E)).
  - exact sample_tree_at.
  - simpl. lia.
Defined.

Lemma remove_spec_witness :
  (7 ∈ keys sample_tree /\
   exists a v t' s' h',
     SplayTree.remove demo_INVALID 4 sample_handle 7 sample_heap = Ok (v, s') h' /\
     handle_at h' s' t' /\
     addrs sample_tree ≡ₚ a :: addrs t' /\
     entries sample_tree ≡ₚ (7, v) :: entries t' /\
     h' !! a = None /\
     (forall b, b ∉ addrs sample_tree -> h' !! b = sample_heap !! b) /\
     SplayTree.size s' = SplayTree.size sample_handle - 1) \/
  (7 ∉ keys sample_tree /\
   SplayTree.remove demo_INVALID 4 sample_handle 7 sample_heap
     = Ok (demo_INVALID, sample_handle) sample_heap).
Proof.
  apply (remove_spec demo_INVALID 4 sample_heap sample_handle sample_tree 7).
  - exact sample_handle_at.
  - exact sample_sorted.
  - simpl. lia.
Defined.

Lemma add_all_inorder_sorted_witness :
  exists s' h' ks,
    add_all 3 SplayTree.init [(2, 20); (1, 10); (2, 21)] ∅ = Ok s' h' /\
    inorder_keys 4 h' (SplayTree.tree_ s') = Some ks /\
    ks ≡ₚ [2; 1; 2] /\
    Sorted Z.le ks.
Proof.
  apply (add_all_inorder_sorted 3 [(2, 20); (1, 10); (2, 21)] ∅).
  simpl. lia.
Defined.

Lemma Add_all_bst_witness :
  exists p h' t,
    Add_all 3 None [(1, 10); (1, 11)] ∅ = Ok p h' /\
    tree_at h' p t /\
    entries t ≡ₚ [(1, 10); (1, 11)] /\
    bst t /\
    forall l a x w r v,
      t = T l a x w r ->
      exists h'',
        SplayTree.Node.Add 3 p x v h' = Ok p h'' /\
        tree_at h'' p (T l a x w (ins r (fresh (dom h')) x v)).
Proof.
  apply (Add_all_bst 3 [(1, 10); (1, 11)] ∅).
  simpl. lia.
Defined.

Lemma find_after_add_witness :
  exists s1 h1 s2 h2,
    run demo_INVALID 7 SplayTree.init
      ([OpAdd 1 10; OpAdd 2 20; OpRemove 2] ++ OpAdd 2 21 :: [OpAdd 2 22; OpFind 1; OpRemove 1]) ∅
      = Ok s1 h1 /\
    SplayTree.find demo_INVALID 7 s1 2 h1 = Ok (21, s2) h2.
Proof.
  apply (find_after_add demo_INVALID 7 ∅
           [OpAdd 1 10; OpAdd 2 20; OpRemove 2] [OpAdd 2 22; OpFind 1; OpRemove 1] 2 21
           (SplayTree.mk (Some 1%positive) 1)
           (<[1%positive := mkNode None None 1 10]> ∅) [1]).
  - simpl. lia.
  - vm_compute. reflexivity.
  - vm_compute. reflexivity.
  - compute_done.
  - repeat constructor; discriminate.
Defined.

(** ** Where the specification and the code part ways *)

(** C4, as worded: after [Add(1, 10)] and [Add(1, 11)] the second node is
    the right child of the first and holds the same key, so the right
    subtree of the root has a key that is not larger than the root's. *)
Lemma Add_all_not_le_gt :
  Add_all 3 None [(1, 10); (1, 11)] ∅ = Ok (Some 1%positive) twin_heap /\
  tree_at twin_heap (Some 1%positive) twin_tree /\
  ~ bst_le_gt twin_tree.
Proof.
  split; [vm_compute; reflexivity|]. split.
  - split; [reflexivity|]. split.
    + simpl. repeat split; reflexivity.
    + compute_done.
  - simpl. intros (_ & Hr & _). inversion Hr; subst. lia.
Qed.

(** C8, as worded: the key 1 is inserted with value 10 and then with value
    20, and never removed; [find(1)] returns 10, not the 20 of the second
    insertion. *)
Lemma find_after_add_duplicate :
  exists s1 h1 s2 h2,
    no_remove 1 [] /\
    run demo_INVALID 3 SplayTree.init ([OpAdd 1 10] ++ OpAdd 1 20 :: []) ∅ = Ok s1 h1 /\
    SplayTree.find demo_INVALID 3 s1 1 h1 = Ok (10, s2) h2 /\
    10 <> 20.
Proof.
  eexists _, _, _, _. split; [constructor|].
  split; [vm_compute; reflexivity|].
  split; [vm_compute; reflexivity|done].
Qed.

(** ** The scenario of the drivers *)

Example demo_find_8 :
  exists s h s' h',
    add_all demo_fuel SplayTree.init demo_entries ∅ = Ok s h /\
    SplayTree.size s = 15 /\
    SplayTree.find demo_INVALID demo_fuel s 8 h = Ok (11, s') h' /\
    key (SplayTree.tree_ s') h' = Ok 8 h'.
Proof.
  eexists _, _, _, _. split; [vm_compute; reflexivity|].
  split; [reflexivity|]. split; vm_compute; reflexivity.
Qed.

Example demo_find_100 :
  exists s h,
    add_all demo_fuel SplayTree.init demo_entries ∅ = Ok s h /\
    SplayTree.find demo_INVALID demo_fuel s 100 h = Ok (demo_INVALID, s) h.
Proof.
  eexists _, _. split; vm_compute; reflexivity.
Qed.

Example demo_remove_8 :
  exists s h s' h',
    add_all demo_fuel SplayTree.init demo_entries ∅ = Ok s h /\
    SplayTree.remove demo_INVALID demo_fuel s 8 h = Ok (11, s') h' /\
    SplayTree.size s' = 14 /\
    SplayTree.find demo_INVALID demo_fuel s' 8 h' = Ok (demo_INVALID, s') h'.
Proof.
  eexists _, _, _, _. split; [vm_compute; reflexivity|].
  split; [vm_compute; reflexivity|]. split; [reflexivity|].
  vm_compute. reflexivity.
Qed.

(** * Further properties of the code *)

(** ** Teardown *)

(** [DeleteAll] on a heap that holds a tree frees the nodes of the tree and
    touches nothing else. *)
Lemma DeleteAll_spec t : forall fuel (h : heap),
  repr h t -> NoDup (addrs t) -> (height t < fuel)%nat ->
  exists h',
    SplayTree.Node.DeleteAll fuel (root t) h = Ok tt h' /\
    (forall a, a ∈ addrs t -> h' !! a = None) /\
    (forall b, b ∉ addrs t -> h' !! b = h !! b).
Proof.
  induction t as [|l IHl a k v r IHr]; intros fuel h Hrep Hnd Hfuel;
    (destruct fuel as [|fuel]; [lia|]).
  - exists h. split_and!; [done| |done]. by intros a ?%elem_of_nil.
  - destruct Hrep as (Ha & Hl & Hr).
    apply NoDup_node in Hnd as (Ndl & Ndr & Hal & Har & Hlr).
    simpl in Hfuel. cbn [SplayTree.Node.DeleteAll root].
    erewrite bind_get_c by done. cbn [c_ c0].
    assert (exists h1,
      match root l with
      | Some _ => SplayTree.Node.DeleteAll fuel (root l)
      | None => ret ()
      end h = Ok tt h1 /\
      (forall b, b ∈ addrs l -> h1 !! b = None) /\
      (forall b, b ∉ addrs l -> h1 !! b = h !! b)) as (h1 & Hrun1 & Hfree1 & Hfr1).
    { destruct l as [|ll b y w lr].
      - exists h. split_and!; [done| |done]. by intros b ?%elem_of_nil.
      - apply IHl; [done|done|lia]. }
    erewrite bind_ok by exact Hrun1.
    erewrite bind_get_c by (rewrite Hfr1; done). cbn [c_ c1].
    assert (Hr1 : repr h1 r).
    { repr_frame Hr. apply Hfr1. intros ?. by eapply Hlr. }
    assert (exists h2,
      match root r with
      | Some _ => SplayTree.Node.DeleteAll fuel (root r)
      | None => ret ()
      end h1 = Ok tt h2 /\
      (forall b, b ∈ addrs r -> h2 !! b = None) /\
      (forall b, b ∉ addrs r -> h2 !! b = h1 !! b)) as (h2 & Hrun2 & Hfree2 & Hfr2).
    { destruct r as [|rl b y w rr].
      - exists h1. split_and!; [done| |done]. by intros b ?%elem_of_nil.
      - apply IHr; [done|done|lia]. }
    erewrite bind_ok by exact Hrun2.
    unfold delete_Node. rewrite Hfr2, Hfr1, Ha by done.
    eexists. split_and!; [done| |].
    + intros b Hb. simpl in Hb. destruct (decide (b = a)) as [->|Hne].
      * by rewrite lookup_delete_eq.
      * rewrite lookup_delete_ne by done.
        apply elem_of_app in Hb as [Hb|Hb%elem_of_cons].
        -- rewrite Hfr2 by (by apply Hlr). by apply Hfree1.
        -- destruct Hb as [->|Hb]; [done|]. by apply Hfree2.
    + intros b Hb. simpl in Hb. apply not_elem_of_app in Hb as [Hbl Hb].
      apply not_elem_of_cons in Hb as [Hba Hbr].
      rewrite lookup_delete_ne by done. by rewrite Hfr2, Hfr1.
Qed.

(** X1. [DeleteAll] on a tree of [N] nodes ends and deallocates exactly
    those [N] nodes: afterwards every address of the tree is free, every
    other address holds what it held, and the heap has [N] nodes less.
    Both copies of the class do the same. *)
Theorem DeleteAll_frees_tree (fuel : nat) (h : heap) (p : ptr) (t : tree) :
  tree_at h p t -> (height t < fuel)%nat ->
  exists h',
    SplayTree.Node.DeleteAll fuel p h = Ok tt h' /\
    Node.DeleteAll fuel p h = Ok tt h' /\
    (forall a, a ∈ addrs t -> h' !! a = None) /\
    (forall b, b ∉ addrs t -> h' !! b = h !! b) /\
    size h = (size h' + length (addrs t))%nat.
Proof.
  intros (Hroot & Hrep & Hnd) Hfuel.
  destruct (DeleteAll_spec t fuel h Hrep Hnd Hfuel) as (h' & Hrun & Hfree & Hfr).
  rewrite Hroot in Hrun. exists h'. split_and!; try done.
  assert (Hdom : dom h = dom h' ∪ list_to_set (addrs t)).
  { apply set_eq. intros b. rewrite elem_of_union, elem_of_list_to_set, !elem_of_dom.
    destruct (decide (b ∈ addrs t)) as [Hb|Hb].
    - rewrite (Hfree b Hb). split; [by right|]. intros _.
      apply elem_of_dom. by eapply repr_dom.
    - rewrite (Hfr b Hb). split; [by left|]. by intros [?|?]. }
  rewrite <- !size_dom, Hdom, size_union.
  - by rewrite size_list_to_set.
  - intros b Hb1 Hb2%elem_of_list_to_set.
    apply elem_of_dom in Hb1 as [? Hb1]. by rewrite (Hfree b Hb2) in Hb1.
Qed.

(** One call keeps the rest of the heap: what is not a node of the tree
    stays as it was, and a node that leaves the tree is freed. *)
Lemma step_extends (INVALID_V : Z) (fuel : nat) (h0 h : heap) (s : SplayTree.t) t o :
  tree_at h (SplayTree.tree_ s) t -> extends h0 h t ->
  (length (addrs t) < fuel)%nat ->
  exists s' h',
    step INVALID_V fuel s o h = Ok s' h' /\
    tree_at h' (SplayTree.tree_ s') (tree_step (fresh (dom h)) o t) /\
    extends h0 h' (tree_step (fresh (dom h)) o t).
Proof.
  intros Hat [Hnew Hold] Hfuel. pose proof (height_le_size t) as Hht.
  destruct o as [k v|k|k]; cbn [step tree_step].
  - destruct Hat as (Hroot & Hrep & Hnd).
    destruct (Add_spec t fuel h k v Hrep Hnd ltac:(lia)) as (h1 & Hrun & Hrep1 & Hfr & _).
    rewrite Hroot in Hrun. unfold SplayTree.add.
    erewrite bind_ok by exact Hrun. eexists _, h1. split; [done|].
    assert (Hfresh : fresh (dom h) ∉ addrs t).
    { eapply repr_not_dom; [done|]. apply is_fresh. }
    split; [split_and!; [done|done|by apply ins_NoDup]|]. split.
    + intros b Hb. rewrite addrs_ins in Hb.
      apply elem_of_cons in Hb as [->|Hb]; [|by apply Hnew].
      rewrite <- Hold by done. apply not_elem_of_dom, is_fresh.
    + intros b Hb. rewrite addrs_ins in Hb.
      apply not_elem_of_cons in Hb as [Hba Hb]. rewrite Hfr by done. by apply Hold.
  - pose proof (find_run INVALID_V fuel h s t k Hat ltac:(lia)) as Hf.
    destruct (splay t k) as [t1|] eqn:Hs.
    + destruct Hf as (l & b & v & r & h1 & -> & _ & Hat1 & Hfr & Hfind).
      erewrite bind_ok by exact Hfind. eexists _, h1.
      split; [done|]. split; [done|].
      pose proof (splay_addrs _ _ _ Hs) as Ha. simpl in Ha.
      split; intros c Hc; simpl in Hc; rewrite Ha in Hc.
      * by apply Hnew.
      * rewrite Hfr by done. by apply Hold.
    + destruct Hf as [_ Hfind]. erewrite bind_ok by exact Hfind.
      by eexists _, h.
  - pose proof (remove_run INVALID_V fuel h s t k Hat ltac:(lia)) as Hr.
    destruct (splay t k) as [t1|] eqn:Hs.
    + destruct Hr as (l & b & v & r & h1 & -> & Hrun & Hat1 & Hgone & Hfr).
      erewrite bind_ok by exact Hrun. eexists _, h1.
      split; [done|]. split; [done|].
      pose proof (splay_addrs _ _ _ Hs) as Ha. simpl in Ha.
      split; intros c Hc; rewrite delete_root_addrs in Hc.
      * apply Hnew. rewrite <- Ha.
        apply elem_of_app in Hc as [Hc|Hc]; apply elem_of_app; [by left|].
        right. by right.
      * apply not_elem_of_app in Hc as [Hcl Hcr].
        destruct (decide (c = b)) as [->|Hne].
        -- rewrite Hgone. symmetry. apply Hnew. rewrite <- Ha.
           apply elem_of_app. right. left.
        -- assert (c ∉ addrs t).
           { rewrite <- Ha. intros [?|[?|?]%elem_of_cons]%elem_of_app; done. }
           rewrite Hfr by done. by apply Hold.
    + erewrite bind_ok by exact Hr. by eexists _, h.
Qed.

Lemma run_extends (INVALID_V : Z) ops :
  forall (fuel : nat) (h0 h : heap) (s : SplayTree.t) t,
  tree_at h (SplayTree.tree_ s) t -> extends h0 h t ->
  (length (addrs t) + length ops <= fuel)%nat ->
  exists s' h' t',
    run INVALID_V fuel s ops h = Ok s' h' /\
    tree_at h' (SplayTree.tree_ s') t' /\ extends h0 h' t' /\
    (length (addrs t') <= length (addrs t) + length ops)%nat.
Proof.
  induction ops as [|o ops IH]; intros fuel h0 h s t Hat Hext Hfuel.
  - exists s, h, t. split_and!; try done. lia.
  - simpl in Hfuel.
    destruct (step_extends INVALID_V fuel h0 h s t o Hat Hext ltac:(lia))
      as (s1 & h1 & Hstep & Hat1 & Hext1).
    pose proof (size_tree_step (fresh (dom h)) o t) as Hsize.
    destruct (IH fuel h0 h1 s1 _ Hat1 Hext1 ltac:(lia))
      as (s2 & h2 & t2 & Hrun & Hat2 & Hext2 & Hsize2).
    exists s2, h2, t2. cbn [run]. erewrite bind_ok by exact Hstep.
    split_and!; try done. simpl. lia.
Qed.

(** X2. No node leaks: after any sequence of [add], [find] and [remove]
    calls on a fresh handle, the destructor ends and leaves the heap
    exactly as it was before the handle was used; every node the handle
    allocated has been freed by [remove] or by the destructor, and nothing
    else was touched. *)
Theorem destructor_restores_heap (INVALID_V : Z) (fuel : nat) (h0 : heap)
    (ops : list op) :
  (length ops < fuel)%nat ->
  exists s h,
    run INVALID_V fuel SplayTree.init ops h0 = Ok s h /\
    SplayTree.destructor fuel s h = Ok tt h0.
Proof.
  intros Hfuel.
  destruct (run_extends INVALID_V ops fuel h0 h0 SplayTree.init E)
    as (s & h & t & Hrun & (Hroot & Hrep & Hnd) & [Hnew Hold] & Hsize).
  - split; [done|]. split; [done|apply NoDup_nil_2].
  - split; [|done]. by intros a ?%elem_of_nil.
  - simpl. lia.
  - exists s, h. split; [done|]. pose proof (height_le_size t) as Hht.
    simpl in Hsize.
    destruct (DeleteAll_spec t fuel h Hrep Hnd ltac:(lia)) as (h' & Hdel & Hfree & Hfr).
    unfold SplayTree.destructor. rewrite <- Hroot, Hdel. f_equal.
    apply map_eq. intros b. destruct (decide (b ∈ addrs t)) as [Hb|Hb].
    + by rewrite Hfree, Hnew.
    + by rewrite Hfr, Hold.
Qed.

(** ** Printing *)

Lemma string_app_assoc (s1 s2 s3 : string) :
  (s1 +:+ s2) +:+ s3 = s1 +:+ (s2 +:+ s3).
Proof.
  induction s1 as [|c s1 IH]; [done|].
  change (String c ((s1 +:+ s2) +:+ s3) = String c (s1 +:+ (s2 +:+ s3))).
  by f_equal.
Qed.

Lemma rows_text_app fmt_G rs1 rs2 :
  rows_text fmt_G (rs1 ++ rs2) = rows_text fmt_G rs1 +:+ rows_text fmt_G rs2.
Proof.
  induction rs1 as [|row rs1 IH]; simpl; [done|].
  by rewrite IH, string_app_assoc.
Qed.

(** The keys are written in reverse in-order. *)
Lemma rows_keys t c d : (rows t c d).*2 = reverse (keys t).
Proof.
  revert c d. induction t as [|l IHl a k v r IHr]; intros c d; simpl; [done|].
  rewrite fmap_app, fmap_cons, IHl, IHr, reverse_app, reverse_cons. simpl.
  by rewrite <- app_assoc.
Qed.

Lemma rows_length t c d : length (rows t c d) = length (addrs t).
Proof.
  revert c d. induction t as [|l IHl a k v r IHr]; intros c d; simpl; [done|].
  rewrite !length_app. simpl. rewrite IHl, IHr. lia.
Qed.

(** Every line is indented by the depth of its node below the start. *)
Lemma rows_depth t c d :
  Forall (fun row => d <= row.1.1 < d + Z.of_nat (height t)) (rows t c d).
Proof.
  revert c d. induction t as [|l IHl a k v r IHr]; intros c d; simpl; [done|].
  apply Forall_app. split; [|constructor].
  - eapply Forall_impl; [apply IHr|]. simpl. lia.
  - simpl. lia.
  - eapply Forall_impl; [apply IHl|]. simpl. lia.
Qed.

(** [Print] on a heap that holds a tree writes the lines of the tree and
    leaves the heap alone. *)
Lemma Print_spec fmt_G t : forall fuel (h : heap) c d,
  repr h t -> (height t < fuel)%nat ->
  0 <= d -> d + Z.of_nat (height t) <= 2 ^ 64 ->
  SplayTree.Node.Print fmt_G fuel (root t) c d h = Ok (rows_text fmt_G (rows t c d)) h.
Proof.
  induction t as [|l IHl a k v r IHr]; intros fuel h c d Hrep Hfuel Hd Hmax;
    (destruct fuel as [|fuel]; [lia|]); [done|].
  destruct Hrep as (Ha & Hl & Hr). simpl in Hfuel.
  cbn [SplayTree.Node.Print root rows].
  erewrite bind_get_c by done. cbn [c_ c1].
  assert (Hwrap : (height l `max` height r)%nat <> O -> (d + 1) mod 2 ^ 64 = d + 1).
  { intros Hne. apply Z.mod_small. cbn [height] in Hmax. lia. }
  assert (Hup :
    match root r with
    | Some _ => SplayTree.Node.Print fmt_G fuel (root r) "R" ((d + 1) mod 2 ^ 64)
    | None => ret ""
    end h = Ok (rows_text fmt_G (rows r "R" (d + 1))) h).
  { destruct r as [|rl b y w rr]; [done|]. cbn [root].
    rewrite Hwrap by (simpl; lia).
    apply IHr; [done|lia|lia|]. cbn [height] in Hmax |- *. lia. }
  erewrite bind_ok by exact Hup.
  erewrite bind_key by done. cbn [k_].
  erewrite bind_get_c by done. cbn [c_ c0].
  assert (Hdown :
    match root l with
    | Some _ => SplayTree.Node.Print fmt_G fuel (root l) "L" ((d + 1) mod 2 ^ 64)
    | None => ret ""
    end h = Ok (rows_text fmt_G (rows l "L" (d + 1))) h).
  { destruct l as [|ll b y w lr]; [done|]. cbn [root].
    rewrite Hwrap by (simpl; lia).
    apply IHl; [done|lia|lia|]. cbn [height] in Hmax |- *. lia. }
  erewrite bind_ok by exact Hdown. unfold ret.
  rewrite rows_text_app. cbn [rows_text row_text].
  by rewrite !string_app_assoc.
Qed.

(** X3. [print] writes one line per node, the right subtree above the
    node and the left subtree below it, so the keys appear in reverse
    in-order (largest first in an ordered tree); each line is indented by
    two spaces per level of its node and the first call's line has the tag
    [C]; the heap is not changed.  Both copies of [Print] write the same. *)
Theorem print_reverse_inorder (fmt_G : Z -> string) (fuel : nat) (h : heap)
    (s : SplayTree.t) (t : tree) :
  tree_at h (SplayTree.tree_ s) t -> (height t < fuel)%nat ->
  Z.of_nat (height t) <= 2 ^ 64 ->
  SplayTree.print fmt_G fuel s h = Ok (rows_text fmt_G (rows t "C" 0)) h /\
  Node.Print fmt_G fuel (SplayTree.tree_ s) "C" 0 h = Ok (rows_text fmt_G (rows t "C" 0)) h /\
  (rows t "C" 0).*2 = reverse (keys t) /\
  length (rows t "C" 0) = length (addrs t) /\
  Forall (fun row => 0 <= row.1.1 < Z.of_nat (height t)) (rows t "C" 0).
Proof.
  intros (Hroot & Hrep & _) Hfuel Hmax.
  pose proof (Print_spec fmt_G t fuel h "C" 0 Hrep Hfuel ltac:(lia) ltac:(lia)) as Hp.
  rewrite Hroot in Hp. split_and!; [done|done| | |].
  - apply rows_keys.
  - apply rows_length.
  - eapply Forall_impl; [apply rows_depth|]. simpl. lia.
Qed.

(** ** What [find] and [remove] return, and how they compose *)

Lemma splay_miss t k : Sorted Z.le (keys t) -> splay t k = None -> k ∉ keys t.
Proof.
  intros Hsorted Hs Hk. destruct (splay_present t k Hsorted Hk) as [t' Ht'].
  by rewrite Hs in Ht'.
Qed.

Lemma remove_first_absent k es : k ∉ es.*1 -> remove_first k es = es.
Proof.
  induction es as [|[x v] es IH]; simpl; [done|].
  intros [Hx Hes]%not_elem_of_cons. destruct (Z.eqb_spec x k); [done|].
  by rewrite IH.
Qed.

Lemma remove_first_app k v es1 es2 :
  k ∉ es1.*1 -> remove_first k (es1 ++ (k, v) :: es2) = es1 ++ es2.
Proof.
  induction es1 as [|[x w] es1 IH]; simpl.
  - intros _. by rewrite Z.eqb_refl.
  - intros [Hx Hes]%not_elem_of_cons. destruct (Z.eqb_spec x k); [done|].
    by rewrite IH.
Qed.

(** [find] on a handle that owns an ordered tree. *)
Lemma find_value_run (INVALID_V : Z) (fuel : nat) (h : heap) (s : SplayTree.t) t k :
  tree_at h (SplayTree.tree_ s) t -> bst t -> (height t <= fuel)%nat ->
  exists s' h',
    SplayTree.find INVALID_V fuel s k h =
      Ok (default INVALID_V (first_value k (entries t)), s') h' /\
    tree_at h' (SplayTree.tree_ s') (default t (splay t k)) /\
    SplayTree.length_ s' = SplayTree.length_ s.
Proof.
  intros Hat Hbst Hfuel.
  pose proof (find_run INVALID_V fuel h s t k Hat Hfuel) as Hf.
  destruct (splay t k) as [t1|] eqn:Hs.
  - destruct Hf as (l & b & v & r & h1 & -> & _ & Hat1 & _ & Hfind).
    rewrite (splay_first_value _ _ _ _ _ _ Hbst Hs). by eexists _, h1.
  - destruct Hf as [_ Hfind].
    rewrite first_value_None.
    + by exists s, h.
    + rewrite <- keys_entries. apply splay_miss; [by apply bst_sorted|done].
Qed.

(** [remove] on a handle that owns an ordered tree. *)
Lemma remove_entries_run (INVALID_V : Z) (fuel : nat) (h : heap) (s : SplayTree.t) t k :
  tree_at h (SplayTree.tree_ s) t -> bst t -> (length (addrs t) <= fuel)%nat ->
  exists s' h' t',
    SplayTree.remove INVALID_V fuel s k h =
      Ok (default INVALID_V (first_value k (entries t)), s') h' /\
    tree_at h' (SplayTree.tree_ s') t' /\ bst t' /\
    entries t' = remove_first k (entries t) /\
    (length (addrs t') <= length (addrs t))%nat /\
    SplayTree.length_ s' =
      match first_value k (entries t) with
      | Some _ => (SplayTree.length_ s - 1) mod SplayTree.size_t_modulus
      | None => SplayTree.length_ s
      end.
Proof.
  intros Hat Hbst Hfuel.
  pose proof (remove_run INVALID_V fuel h s t k Hat Hfuel) as Hr.
  destruct (splay t k) as [t1|] eqn:Hs.
  - destruct Hr as (l & b & v & r & h1 & -> & Hrun & Hat1 & _).
    rewrite (splay_first_value _ _ _ _ _ _ Hbst Hs).
    pose proof (bst_splay _ _ _ Hs Hbst) as Hbst1.
    eexists _, h1, _. split_and!; [done|done|..].
    + by apply bst_delete_root.
    + rewrite delete_root_entries, <- (splay_entries _ _ _ Hs). simpl.
      rewrite remove_first_app; [done|].
      rewrite <- keys_entries. apply Forall_lt_not_elem. by destruct Hbst1.
    + rewrite delete_root_addrs, <- (splay_addrs _ _ _ Hs). simpl.
      rewrite !length_app. simpl. lia.
    + done.
  - assert (Hk : k ∉ keys t) by (apply splay_miss; [by apply bst_sorted|done]).
    rewrite first_value_None by (by rewrite <- keys_entries).
    exists s, h, t. split_and!; try done.
    by rewrite remove_first_absent by (by rewrite <- keys_entries).
Qed.

(** X5. On an ordered tree [find(k)] returns the value of the first entry
    with key [k] in in-order sequence (the oldest still in the tree, as
    later duplicates go to the right), and [INVALID_V] when there is none;
    it changes neither the entries nor [size()], and the tree stays
    ordered. *)
Theorem find_returns_first_value (INVALID_V : Z) (fuel : nat) (h : heap)
    (s : SplayTree.t) (t : tree) (k : Z) :
  tree_at h (SplayTree.tree_ s) t -> bst t -> (height t <= fuel)%nat ->
  exists s' h' t',
    SplayTree.find INVALID_V fuel s k h =
      Ok (default INVALID_V (first_value k (entries t)), s') h' /\
    tree_at h' (SplayTree.tree_ s') t' /\ bst t' /\
    entries t' = entries t /\
    SplayTree.size s' = SplayTree.size s.
Proof.
  intros Hat Hbst Hfuel.
  destruct (find_value_run INVALID_V fuel h s t k Hat Hbst Hfuel)
    as (s' & h' & Hfind & Hat' & Hlen).
  exists s', h', (default t (splay t k)). split_and!; try done.
  - destruct (splay t k) eqn:Hs; [by eapply bst_splay|done].
  - destruct (splay t k) eqn:Hs; [by eapply splay_entries|done].
Qed.

(** X6. On an ordered tree [remove(k)] returns what [find(k)] would
    return and takes the first entry with key [k] out of the in-order
    sequence, which is otherwise unchanged, its order included; with no
    such entry nothing changes.  The tree stays ordered. *)
Theorem remove_takes_first_entry (INVALID_V : Z) (fuel : nat) (h : heap)
    (s : SplayTree.t) (t : tree) (k : Z) :
  tree_at h (SplayTree.tree_ s) t -> bst t -> (length (addrs t) <= fuel)%nat ->
  exists s' h' t',
    SplayTree.remove INVALID_V fuel s k h =
      Ok (default INVALID_V (first_value k (entries t)), s') h' /\
    tree_at h' (SplayTree.tree_ s') t' /\ bst t' /\
    entries t' = remove_first k (entries t).
Proof.
  intros Hat Hbst Hfuel.
  destruct (remove_entries_run INVALID_V fuel h s t k Hat Hbst Hfuel)
    as (s' & h' & t' & Hrun & Hat' & Hbst' & Hent & _).
  by exists s', h', t'.
Qed.

(** X7. After [remove(k)], [find(k)] returns the value of the next entry
    with key [k] when the key was held more than once, and [INVALID_V]
    otherwise. *)
Theorem remove_then_find (INVALID_V : Z) (fuel : nat) (h : heap)
    (s : SplayTree.t) (t : tree) (k : Z) :
  tree_at h (SplayTree.tree_ s) t -> bst t -> (length (addrs t) <= fuel)%nat ->
  exists r s1 h1 s2 h2,
    SplayTree.remove INVALID_V fuel s k h = Ok (r, s1) h1 /\
    SplayTree.find INVALID_V fuel s1 k h1 =
      Ok (default INVALID_V (first_value k (remove_first k (entries t))), s2) h2.
Proof.
  intros Hat Hbst Hfuel.
  destruct (remove_entries_run INVALID_V fuel h s t k Hat Hbst Hfuel)
    as (s1 & h1 & t1 & Hrun & Hat1 & Hbst1 & Hent & Hsize & _).
  pose proof (height_le_size t1) as Hht.
  destruct (find_value_run INVALID_V fuel h1 s1 t1 k Hat1 Hbst1 ltac:(lia))
    as (s2 & h2 & Hfind & _).
  rewrite Hent in Hfind. by eexists _, s1, h1, s2, h2.
Qed.

(** X8. A hit leaves the node found at the root, so a second [find(k)]
    right after it returns the same value and changes nothing, neither
    the heap nor the handle; it needs no recursion at all. *)
Theorem find_twice (INVALID_V : Z) (fuel fuel' : nat) (h : heap)
    (s : SplayTree.t) (t : tree) (k : Z) :
  tree_at h (SplayTree.tree_ s) t -> Sorted Z.le (keys t) -> k ∈ keys t ->
  (height t <= fuel)%nat ->
  exists v s1 h1,
    SplayTree.find INVALID_V fuel s k h = Ok (v, s1) h1 /\
    SplayTree.find INVALID_V fuel' s1 k h1 = Ok (v, s1) h1.
Proof.
  intros Hat Hsorted Hk Hfuel.
  pose proof (find_run INVALID_V fuel h s t k Hat Hfuel) as Hf.
  destruct (splay_present t k Hsorted Hk) as [t' Hs]. rewrite Hs in Hf.
  destruct Hf as (l & b & v & r & h1 & -> & _ & (_ & (Hb & _) & _) & _ & Hfind).
  eexists v, _, h1. split; [exact Hfind|].
  unfold SplayTree.find, SplayTree.Node.Find. cbn [SplayTree.tree_ SplayTree.length_].
  rewrite bind_bind. erewrite bind_key by exact Hb. cbn [k_].
  rewrite Z.eqb_refl. cbn [negb]. rewrite bind_ret.
  erewrite bind_val by exact Hb. done.
Qed.

(** X11. [Find] never returns a node with another key: on any tree,
    ordered or not, a non-null result is a node of the tree that holds the
    key sought, and it is the root afterwards. *)
Theorem Find_result_has_key (fuel : nat) (h h' : heap) (p p' : ptr)
    (c : addr) (t : tree) (k : Z) :
  tree_at h p t ->
  SplayTree.Node.Find fuel p k h = Ok (Some c, p') h' ->
  p' = Some c /\ c ∈ addrs t /\ k ∈ keys t /\ key (Some c) h' = Ok k h'.
Proof.
  intros (Hroot & Hrep & Hnd) Hrun.
  apply (Find_mono fuel (fuel `max` height t)) in Hrun; [|lia].
  pose proof (Find_spec t (fuel `max` height t) h k Hrep Hnd ltac:(lia)) as Hf.
  rewrite Hroot in Hf. destruct (splay t k) as [t'|] eqn:Hs.
  - destruct Hf as (h2 & Hrun2 & Hrep2 & _).
    rewrite Hrun in Hrun2. injection Hrun2 as Hc Hp' Hh. subst p' h2.
    destruct (splay_root _ _ _ Hs) as (l & b & v & r & ->).
    injection Hc as ->. destruct Hrep2 as (Hb & _).
    split_and!; [done| | |].
    + rewrite <- (splay_addrs _ _ _ Hs). simpl. set_solver.
    + rewrite <- (splay_keys _ _ _ Hs). simpl. set_solver.
    + unfold key, bind, load. by rewrite Hb.
  - by rewrite Hrun in Hf.
Qed.

(** ** Insertion: what it changes and where the entry goes *)


Lemma insert_after_app_le k v es1 es2 :
  Forall (fun y => y <= k) es1.*1 ->
  insert_after k v (es1 ++ es2) = es1 ++ insert_after k v es2.
Proof.
  induction es1 as [|[x w] es1 IH]; simpl; [done|].
  intros [Hx Hes]%Forall_cons. destruct (Z.leb_spec x k); [|lia]. by rewrite IH.
Qed.

Lemma insert_after_app_gt k v es1 x w es2 :
  k < x ->
  insert_after k v (es1 ++ (x, w) :: es2) = insert_after k v es1 ++ (x, w) :: es2.
Proof.
  intros Hlt. induction es1 as [|[y u] es1 IH]; simpl.
  - destruct (Z.leb_spec x k); [lia|done].
  - destruct (y <=? k); [by rewrite IH|done].
Qed.

(** In an ordered tree the new entry goes behind every entry whose key is
    not larger: duplicates keep their order of insertion. *)
Lemma entries_ins_ordered t a k v :
  bst t -> entries (ins t a k v) = insert_after k v (entries t).
Proof.
  induction t as [|l IHl b x w r IHr]; simpl; [done|].
  intros (Hl & Hr & Bl & Br). destruct (Z.leb_spec x k) as [Hle|Hgt]; simpl.
  - rewrite insert_after_app_le.
    + simpl. destruct (Z.leb_spec x k); [|lia]. by rewrite IHr.
    + rewrite <- keys_entries. eapply Forall_impl; [exact Hl|]. simpl. lia.
  - rewrite insert_after_app_gt by done. by rewrite IHl.
Qed.


Lemma Add_all_entries kvs : forall fuel (h : heap) t,
  repr h t -> NoDup (addrs t) -> bst t ->
  (length (addrs t) + length kvs <= fuel)%nat ->
  exists h' t',
    Add_all fuel (root t) kvs h = Ok (root t') h' /\
    repr h' t' /\ NoDup (addrs t') /\
    entries t' = foldl (fun es kv => insert_after kv.1 kv.2 es) (entries t) kvs.
Proof.
  induction kvs as [|[k v] kvs IH]; intros fuel h t Hrep Hnd Hbst Hfuel.
  - by exists h, t.
  - simpl in Hfuel. pose proof (height_le_size t) as Hht.
    destruct (Add_spec t fuel h k v Hrep Hnd ltac:(lia)) as (h1 & Hrun & Hrep1 & _ & _).
    pose proof (ins_NoDup h t k v Hrep Hnd) as Hnd1.
    pose proof (bst_ins t (fresh (dom h)) k v Hbst) as Hbst1.
    assert (Hlen1 : length (addrs (ins t (fresh (dom h)) k v)) = S (length (addrs t))).
    { by rewrite addrs_ins. }
    destruct (IH fuel h1 _ Hrep1 Hnd1 Hbst1 ltac:(lia))
      as (h2 & t2 & Hrun2 & Hrep2 & Hnd2 & Hent2).
    exists h2, t2. cbn [Add_all]. erewrite bind_ok by exact Hrun.
    split_and!; try done.
    rewrite Hent2. cbn [foldl fst snd]. by rewrite entries_ins_ordered.
Qed.

(** X10. A sequence of [add] calls on an empty handle sorts its entries
    stably: the in-order sequence of the tree it builds is the list of
    inserted entries sorted by key, entries with equal keys in the order
    of their insertion. *)
Theorem add_all_stable_sort (fuel : nat) (kvs : list (Z * Z)) (h : heap) :
  (length kvs <= fuel)%nat ->
  exists s' h' t,
    add_all fuel SplayTree.init kvs h = Ok s' h' /\
    tree_at h' (SplayTree.tree_ s') t /\
    entries t = stable_sort kvs.
Proof.
  intros Hfuel.
  destruct (Add_all_entries kvs fuel h E I (NoDup_nil_2) I Hfuel)
    as (h' & t' & Hrun & Hrep & Hnd & Hent).
  pose proof (add_all_Add_all fuel kvs SplayTree.init h) as Hh.
  cbn [SplayTree.init SplayTree.tree_ root] in *. rewrite Hrun in Hh.
  destruct (add_all fuel SplayTree.init kvs h) as [s' h2| |]; [|done..].
  destruct Hh as [Hs ->]. exists s', h', t'. by split_and!.
Qed.

(** ** The invariant of the handle *)

(** X4. Any sequence of [add], [find] and [remove] calls on a handle that
    owns an ordered tree and counts its nodes ends without a fault and
    leaves such a handle: the tree is ordered, its in-order keys are
    sorted, no node is shared, and [size()] is the number of nodes.  This
    holds as long as the number of nodes fits [size_t]. *)
Theorem calls_keep_handle_invariant (INVALID_V : Z) (fuel : nat) (h : heap)
    (s : SplayTree.t) (t : tree) (ops : list op) :
  handle_at h s t -> bst t ->
  (length (addrs t) + length ops <= fuel)%nat ->
  Z.of_nat (length (addrs t) + length ops) < SplayTree.size_t_modulus ->
  exists s' h' t',
    run INVALID_V fuel s ops h = Ok s' h' /\
    handle_at h' s' t' /\ bst t' /\ Sorted Z.le (keys t') /\
    SplayTree.size s' = Z.of_nat (length (keys t')).
Proof.
  intros Hh Hbst Hfuel Hmax.
  destruct (run_handle_at INVALID_V ops fuel h s t Hh Hbst Hfuel Hmax)
    as (s' & h' & t' & Hrun & Hh' & Hbst').
  exists s', h', t'. split_and!; try done.
  - by apply bst_sorted.
  - destruct Hh' as (_ & Hlen & _). unfold SplayTree.size. rewrite Hlen.
    f_equal. clear. induction t' as [|l IHl a k v r IHr]; simpl; [done|].
    rewrite !length_app. simpl. lia.
Qed.

(** ** The further properties at work on sample data *)

Lemma sample_bst : bst sample_tree.
Proof. simpl. repeat split; repeat constructor; lia. Defined.

Lemma DeleteAll_frees_tree_witness :
  exists h',
    SplayTree.Node.DeleteAll 4 (Some 1%positive) sample_heap = Ok tt h' /\
    Node.DeleteAll 4 (Some 1%positive) sample_heap = Ok tt h' /\
    (forall a, a ∈ addrs sample_tree -> h' !! a = None) /\
    (forall b, b ∉ addrs sample_tree -> h' !! b = sample_heap !! b) /\
    size sample_heap = (size h' + length (addrs sample_tree))%nat.
Proof.
  apply (DeleteAll_frees_tree 4 sample_heap (Some 1%positive) sample_tree).
  - exact sample_tree_at.
  - simpl. lia.
Defined.

Lemma destructor_restores_heap_witness :
  exists s h,
    run demo_INVALID 6 SplayTree.init sample_ops sample_heap = Ok s h /\
    SplayTree.destructor 6 s h = Ok tt sample_heap.
Proof.
  apply (destructor_restores_heap demo_INVALID 6 sample_heap sample_ops).
  simpl. lia.
Defined.

Lemma print_reverse_inorder_witness :
  SplayTree.print fmt_G_small 4 sample_handle sample_heap
    = Ok (rows_text fmt_G_small (rows sample_tree "C" 0)) sample_heap /\
  Node.Print fmt_G_small 4 (SplayTree.tree_ sample_handle) "C" 0 sample_heap
    = Ok (rows_text fmt_G_small (rows sample_tree "C" 0)) sample_heap /\
  (rows sample_tree "C" 0).*2 = reverse (keys sample_tree) /\
  length (rows sample_tree "C" 0) = length (addrs sample_tree) /\
  Forall (fun row => 0 <= row.1.1 < Z.of_nat (height sample_tree)) (rows sample_tree "C" 0).
Proof.
  apply (print_reverse_inorder fmt_G_small 4 sample_heap sample_handle sample_tree).
  - exact sample_tree_at.
  - simpl. lia.
  - vm_compute. discriminate.
Defined.

Lemma calls_keep_handle_invariant_witness :
  exists s' h' t',
    run demo_INVALID 9 sample_handle sample_ops sample_heap = Ok s' h' /\
    handle_at h' s' t' /\ bst t' /\ Sorted Z.le (keys t') /\
    SplayTree.size s' = Z.of_nat (length (keys t')).
Proof.
  apply (calls_keep_handle_invariant demo_INVALID 9 sample_heap sample_handle
           sample_tree sample_ops).
  - exact sample_handle_at.
  - exact sample_bst.
  - simpl. lia.
  - vm_compute. reflexivity.
Defined.

Lemma find_returns_first_value_witness :
  exists s' h' t',
    SplayTree.find demo_INVALID 3 sample_handle 7 sample_heap =
      Ok (default demo_INVALID (first_value 7 (entries sample_tree)), s') h' /\
    tree_at h' (SplayTree.tree_ s') t' /\ bst t' /\
    entries t' = entries sample_tree /\
    SplayTree.size s' = SplayTree.size sample_handle.
Proof.
  apply (find_returns_first_value demo_INVALID 3 sample_heap sample_handle sample_tree 7).
  - exact sample_tree_at.
  - exact sample_bst.
  - simpl. lia.
Defined.

Lemma remove_takes_first_entry_witness :
  exists s' h' t',
    SplayTree.remove demo_INVALID 4 sample_handle 7 sample_heap =
      Ok (default demo_INVALID (first_value 7 (entries sample_tree)), s') h' /\
    tree_at h' (SplayTree.tree_ s') t' /\ bst t' /\
    entries t' = remove_first 7 (entries sample_tree).
Proof.
  apply (remove_takes_first_entry demo_INVALID 4 sample_heap sample_handle sample_tree 7).
  - exact sample_tree_at.
  - exact sample_bst.
  - simpl. lia.
Defined.

Lemma remove_then_find_witness :
  exists r s1 h1 s2 h2,
    SplayTree.remove demo_INVALID 4 sample_handle 7 sample_heap = Ok (r, s1) h1 /\
    SplayTree.find demo_INVALID 4 s1 7 h1 =
      Ok (default demo_INVALID (first_value 7 (remove_first 7 (entries sample_tree))), s2) h2.
Proof.
  apply (remove_then_find demo_INVALID 4 sample_heap sample_handle sample_tree 7).
  - exact sample_tree_at.
  - exact sample_bst.
  - simpl. lia.
Defined.

Lemma find_twice_witness :
  exists v s1 h1,
    SplayTree.find demo_INVALID 3 sample_handle 7 sample_heap = Ok (v, s1) h1 /\
    SplayTree.find demo_INVALID 0 s1 7 h1 = Ok (v, s1) h1.
Proof.
  apply (find_twice demo_INVALID 3 0 sample_heap sample_handle sample_tree 7).
  - exact sample_tree_at.
  - exact sample_sorted.
  - compute_done.
  - simpl. lia.
Defined.


Lemma add_all_stable_sort_witness :
  exists s' h' t,
    add_all 3 SplayTree.init [(2, 20); (1, 10); (2, 21)] ∅ = Ok s' h' /\
    tree_at h' (SplayTree.tree_ s') t /\
    entries t = stable_sort [(2, 20); (1, 10); (2, 21)].
Proof.
  apply (add_all_stable_sort 3 [(2, 20); (1, 10); (2, 21)] ∅).
  simpl. lia.
Defined.

Lemma Find_result_has_key_witness :
  Some 4%positive = Some 4%positive /\
  4%positive ∈ addrs sample_tree /\ 7 ∈ keys sample_tree /\
  key (Some 4%positive) sample_heap_found = Ok 7 sample_heap_found.
Proof.
  apply (Find_result_has_key 3 sample_heap sample_heap_found
           (Some 1%positive) (Some 4%positive) 4%positive sample_tree 7).
  - exact sample_tree_at.
  - vm_compute. reflexivity.
Defined.

(** The text [print] writes for the sample tree. *)
Example sample_print :
  SplayTree.print fmt_G_small 4 sample_handle sample_heap
    = Ok ("  R:9" +:+ String "010" ("    L:7" +:+ String "010" ("C:5" +:+ String "010"
            ("  L:3" +:+ String "010" "")))) sample_heap.
Proof. vm_compute. reflexivity. Qed.

(** ** The sentinel as a stored value *)

(** X12. The value [INVALID_V] can be stored, and then the results do not
    tell a hit from a miss: when the first entry with key [k] holds
    [INVALID_V], [find(k)] returns [INVALID_V] as for an absent key, and
    [remove(k)] returns [INVALID_V] although it takes that entry out of
    the tree and lowers [size()] by one. *)
Theorem stored_sentinel_looks_like_miss (INVALID_V : Z) (fuel : nat) (h : heap)
    (s : SplayTree.t) (t : tree) (k : Z) :
  handle_at h s t -> bst t -> (length (addrs t) <= fuel)%nat ->
  first_value k (entries t) = Some INVALID_V ->
  (exists s' h', SplayTree.find INVALID_V fuel s k h = Ok (INVALID_V, s') h') /\
  (exists s' h' t',
     SplayTree.remove INVALID_V fuel s k h = Ok (INVALID_V, s') h' /\
     handle_at h' s' t' /\
     entries t' = remove_first k (entries t) /\
     SplayTree.size s' = SplayTree.size s - 1).
Proof.
  intros (Hat & Hlen & Hmax) Hbst Hfuel Hfv. pose proof (height_le_size t) as Hht.
  split.
  - destruct (find_value_run INVALID_V fuel h s t k Hat Hbst ltac:(lia))
      as (s' & h' & Hfind & _).
    rewrite Hfv in Hfind. by exists s', h'.
  - destruct (remove_entries_run INVALID_V fuel h s t k Hat Hbst Hfuel)
      as (s' & h' & t' & Hrun & Hat' & _ & Hent & _ & Hlen').
    rewrite Hfv in Hrun, Hlen'. exists s', h', t'.
    assert (Hcount : length (entries t) = S (length (entries t'))).
    { rewrite Hent. clear -Hfv. induction (entries t) as [|[x w] es IH]; [done|].
      simpl in *. destruct (x =? k); [done|]. simpl. by rewrite IH. }
    assert (Hsame : forall t0, length (addrs t0) = length (entries t0)).
    { clear. induction t0 as [|l IHl a x v r IHr]; simpl; [done|].
      rewrite !length_app. simpl. lia. }
    assert (Hs : SplayTree.length_ s = Z.of_nat (S (length (addrs t')))).
    { by rewrite Hlen, !Hsame, Hcount. }
    assert (Hdec : (SplayTree.length_ s - 1) mod SplayTree.size_t_modulus
                   = SplayTree.length_ s - 1).
    { unfold SplayTree.size_t_modulus in *. apply Z.mod_small. lia. }
    split_and!; [done| |done|].
    + unfold handle_at. split_and!; [done|lia|lia].
    + unfold SplayTree.size. by rewrite Hlen', Hdec.
Qed.

Lemma stored_sentinel_looks_like_miss_witness :
  (exists s' h', SplayTree.find 70 4 sample_handle 7 sample_heap = Ok (70, s') h') /\
  (exists s' h' t',
     SplayTree.remove 70 4 sample_handle 7 sample_heap = Ok (70, s') h' /\
     handle_at h' s' t' /\
     entries t' = remove_first 7 (entries sample_tree) /\
     SplayTree.size s' = SplayTree.size sample_handle - 1).
Proof.
  apply (stored_sentinel_looks_like_miss 70 4 sample_heap sample_handle sample_tree 7).
  - exact sample_handle_at.
  - exact sample_bst.
  - simpl. lia.
  - reflexivity.
Defined.
